(** * upstash-as-a-db: the Collection abstraction over a key-value store

    A shallow embedding of [src/index.ts] (classes [Collection] and
    [CollectionIndex]) and [src/tokenization.ts] (class [Tokenizer]).

    - JavaScript values are an inductive type [value]; truthiness, the
      string coercion of template literals, [!==], lodash's [isEqual] and
      object spread are functions on it.
    - The store behind [@upstash/redis] is a finite map from keys to entries
      (a JSON value or a set of members, with an optional time-to-live),
      together with the trace of the round trips made so far.
    - Every [async] method is a function in a state-and-exception monad over
      that store: an exception keeps the writes made before it was raised.
    - The cipher of crypto-js and the JSON codec of the runtime are
      collaborators of the code; they are taken through the interface
      [Collaborators], with the laws the code relies on.
    - [hmacSign] of [src/tokenization.ts], an HMAC-SHA256 of crypto-js that
      neither class calls, is not embedded. *)

From stdpp Require Import base option strings list gmap.
From Stdlib Require Import ZArith Lia Ascii DecimalString DecimalZ DecimalPos.

Set Warnings "-register-all".

Local Open Scope string_scope.
Local Open Scope Z_scope.
Local Open Scope list_scope.

(** ** JavaScript values *)

Module JS.

(** JSON-like values. Numbers are integers, taken exactly: the model stands
    for the safe integers of the language, written in plain decimal. *)
Inductive value : Type :=
| VUndefined
| VNull
| VBool (b : bool)
| VNum (n : Z)
| VStr (s : string)
| VArr (items : list value)
| VObj (props : list (string * value)).

(** [!!v] *)
Definition truthy (v : value) : bool :=
  match v with
  | VUndefined | VNull => false
  | VBool b => b
  | VNum n => negb (Z.eqb n 0)
  | VStr s => negb (String.eqb s "")
  | VArr _ | VObj _ => true
  end.

(** The decimal writing of an integer-valued number. *)
Definition number_to_string (n : Z) : string :=
  NilZero.string_of_int (Z.to_int n).

Fixpoint join (sep : string) (parts : list string) : string :=
  match parts with
  | [] => ""
  | [p] => p
  | p :: rest => p +:+ sep +:+ join sep rest
  end.

(** The string coercion of a template literal [`${v}`]. An array joins its
    elements with a comma, [null] and [undefined] elements giving the empty
    string; a plain object gives ["[object Object]"]. *)
Fixpoint to_string (v : value) : string :=
  match v with
  | VUndefined => "undefined"
  | VNull => "null"
  | VBool true => "true"
  | VBool false => "false"
  | VNum n => number_to_string n
  | VStr s => s
  | VArr items =>
      join ","
        ((fix elems (l : list value) : list string :=
            match l with
            | [] => []
            | VUndefined :: l' => "" :: elems l'
            | VNull :: l' => "" :: elems l'
            | x :: l' => to_string x :: elems l'
            end) items)
  | VObj _ => "[object Object]"
  end.

Fixpoint lookup_prop (k : string) (props : list (string * value)) : option value :=
  match props with
  | [] => None
  | (k', v) :: rest => if String.eqb k k' then Some v else lookup_prop k rest
  end.

(** [data[k]] on a record the caller passed: an object by its type, given
    by its own properties. A missing property reads [undefined]; inherited
    properties, which are functions, are outside the model. *)
Definition field (data : list (string * value)) (k : string) : value :=
  default VUndefined (lookup_prop k data).

(** The index properties of an array or of the characters of a string. *)
Definition index_props (vs : list value) : list (string * value) :=
  imap (fun i v => (number_to_string (Z.of_nat i), v)) vs.

Definition chars (s : string) : list value :=
  map (fun c => VStr (String c EmptyString)) (String.list_ascii_of_string s).

(** The own enumerable properties of a value: what a spread [...v] copies.
    Integer-like keys are kept where they were written. *)
Definition own_props (v : value) : list (string * value) :=
  match v with
  | VObj props => props
  | VArr items => index_props items
  | VStr s => index_props (chars s)
  | _ => []
  end.

Definition is_nullish (v : value) : bool :=
  match v with
  | VUndefined | VNull => true
  | _ => false
  end.

(** [o[k]] on a value that came out of the store and is neither [null] nor
    [undefined], on which the read throws. *)
Definition get_prop (o : value) (k : string) : value :=
  match o with
  | VObj props => field props k
  | VArr items =>
      if String.eqb k "length" then VNum (Z.of_nat (length items))
      else field (index_props items) k
  | VStr s =>
      if String.eqb k "length" then VNum (Z.of_nat (String.length s))
      else field (index_props (chars s)) k
  | _ => VUndefined
  end.

(** [o[k] = v]: overwrite in place, or append a new property. *)
Fixpoint set_prop (k : string) (v : value) (props : list (string * value))
  : list (string * value) :=
  match props with
  | [] => [(k, v)]
  | (k', v') :: rest =>
      if String.eqb k k' then (k, v) :: rest else (k', v') :: set_prop k v rest
  end.

(** [Object.assign(acc, ps)] *)
Definition assign (ps acc : list (string * value)) : list (string * value) :=
  fold_left (fun acc kv => set_prop kv.1 kv.2 acc) ps acc.

(** [{ ...a, ...b }], by its properties. *)
Definition spread2 (a b : value) : list (string * value) :=
  assign (own_props a ++ own_props b) [].

(** [const { [k]: _, ...rest } = v] *)
Definition omit (k : string) (v : value) : value :=
  VObj (List.filter (fun kv => negb (String.eqb kv.1 k)) (own_props v)).

(** [a === b] where [a] was deserialized from a reply of the store: two
    primitives are compared by value, and a deserialized array or object
    is a fresh reference, identical to nothing the caller holds. *)
Definition strict_eq (a b : value) : bool :=
  match a, b with
  | VUndefined, VUndefined => true
  | VNull, VNull => true
  | VBool x, VBool y => Bool.eqb x y
  | VNum x, VNum y => Z.eqb x y
  | VStr x, VStr y => String.eqb x y
  | _, _ => false
  end.

(** lodash [isEqual]: deep structural equality. Arrays are compared
    position by position; objects have the same number of own properties
    and agree on each of them, whatever their order. *)
Fixpoint isEqual (a b : value) {struct a} : bool :=
  match a, b with
  | VUndefined, VUndefined => true
  | VNull, VNull => true
  | VBool x, VBool y => Bool.eqb x y
  | VNum x, VNum y => Z.eqb x y
  | VStr x, VStr y => String.eqb x y
  | VArr xs, VArr ys =>
      (fix all2 (l : list value) (r : list value) : bool :=
         match l, r with
         | [], [] => true
         | x :: l', y :: r' => isEqual x y && all2 l' r'
         | _, _ => false
         end) xs ys
  | VObj ps, VObj qs =>
      Nat.eqb (length ps) (length qs) &&
      (fix props (l : list (string * value)) : bool :=
         match l with
         | [] => true
         | (k, v) :: l' =>
             match lookup_prop k qs with
             | Some w => isEqual v w
             | None => false
             end && props l'
         end) ps
  | _, _ => false
  end.

(** A value whose objects, at any depth, list no property twice: what the
    objects of the language are. *)
Fixpoint well_formed (v : value) : bool :=
  match v with
  | VArr items => forallb well_formed items
  | VObj props =>
      bool_decide (NoDup (map fst props)) &&
      forallb (fun kv => well_formed (snd kv)) props
  | _ => true
  end.

End JS.
Export JS.

(** ** Errors *)

(** The exceptions the code raises or lets through. The code raises plain
    [Error] objects told apart by their message only; one constructor
    stands for each message, one for what crypto-js and [JSON.parse] throw,
    one for what the language throws when a property of [null] is read, and
    one for an error reply of the store. *)
Inductive error : Type :=
| MissingSecretOrIV       (* "Secret key and IV must be provided!" *)
| IndexOnExpiringCollection (* "Cannot add index to a auto-expiring collection." *)
| SetexWithIndexes        (* "Can't use Collection.setex when having indexes installed!" *)
| ConcurrentUpdate        (* "Expected old data does not match the actual data. ..." *)
| ItemNotFound            (* "Item in collection ... not found." *)
| NoMoreRetries           (* "Error while updating item ... No more retries left." *)
| DecodeError             (* thrown inside [Tokenizer.fromToken] *)
| TypeError               (* a property read on [null] or [undefined] *)
| StoreError.             (* error reply of the store: wrong type, invalid expire *)

Inductive result (A : Type) : Type :=
| Ok (a : A)
| Err (e : error).
Arguments Ok {A} a.
Arguments Err {A} e.

(** ** The store

    The part of Redis the code talks to, as [@upstash/redis] exposes it. One
    key space holds JSON values and sets; a command applied to a key of the
    other kind is answered with an error and changes nothing. The client's
    own serialization of values is taken as transparent; what it makes of
    the members of a set it reads is [revive], with [getItems]. *)

Module Redis.

Inductive payload : Type :=
| PValue (v : value)
| PSet (members : list string).

Record entry : Type := Entry { e_payload : payload; e_ttl : option Z }.

(** The expiry option of [SET]; [get: true] is always passed. *)
Inductive set_option : Type :=
| KeepTtl            (* { get: true, keepTtl: true } *)
| Ex (seconds : Z).  (* { ex: seconds, get: true } *)

Inductive pipeline_command : Type :=
| Sadd (key member : string)
| Srem (key member : string).

Definition command_key (c : pipeline_command) : string :=
  match c with
  | Sadd k _ | Srem k _ => k
  end.

(** What leaves the process: one event per round trip to the store, and the
    two effects of [update]'s retry branch. *)
Inductive event : Type :=
| EGet (key : string)
| EMget (keys : list string)
| ESet (key : string) (v : value) (o : set_option)
| EPersist (key : string)
| ESmembers (key : string)
| EExec (commands : list pipeline_command)
| EWarn
| ESleep (ms : Z).

Record state : Type := State { db : gmap string entry; trace : list event }.

Definition emit (ev : event) (st : state) : state :=
  State (db st) (trace st ++ [ev]).

Definition with_db (d : gmap string entry) (st : state) : state :=
  State d (trace st).

Definition ttl_of (d : gmap string entry) (k : string) : option Z :=
  e ← d !! k; e_ttl e.

Definition value_at (d : gmap string entry) (k : string) : option value :=
  match d !! k with
  | Some (Entry (PValue v) _) => Some v
  | _ => None
  end.

Definition members_at (d : gmap string entry) (k : string) : list string :=
  match d !! k with
  | Some (Entry (PSet ms) _) => ms
  | _ => []
  end.

(** [GET key] *)
Definition do_get (k : string) (d : gmap string entry) : result value :=
  match d !! k with
  | None => Ok VNull
  | Some (Entry (PValue v) _) => Ok v
  | Some (Entry (PSet _) _) => Err StoreError
  end.

(** [MGET keys]: a key that is absent or holds a set answers [null]. *)
Definition do_mget (ks : list string) (d : gmap string entry) : list value :=
  map (fun k => default VNull (value_at d k)) ks.

(** [SET key v GET KEEPTTL] or [SET key v GET EX seconds]: answers the
    previous value ([null] when the key was absent). The command is refused,
    and nothing written, when the key holds a set or the expiry is not
    positive. *)
Definition do_set (k : string) (v : value) (o : set_option) (d : gmap string entry)
  : result value * gmap string entry :=
  match o with
  | Ex seconds =>
      if seconds <=? 0 then (Err StoreError, d) else
      match d !! k with
      | None => (Ok VNull, <[k := Entry (PValue v) (Some seconds)]> d)
      | Some (Entry (PValue old) _) => (Ok old, <[k := Entry (PValue v) (Some seconds)]> d)
      | Some (Entry (PSet _) _) => (Err StoreError, d)
      end
  | KeepTtl =>
      match d !! k with
      | None => (Ok VNull, <[k := Entry (PValue v) None]> d)
      | Some (Entry (PValue old) ttl) => (Ok old, <[k := Entry (PValue v) ttl]> d)
      | Some (Entry (PSet _) _) => (Err StoreError, d)
      end
  end.

(** [PERSIST key] *)
Definition do_persist (k : string) (d : gmap string entry) : gmap string entry :=
  match d !! k with
  | Some (Entry p _) => <[k := Entry p None]> d
  | None => d
  end.

(** [SMEMBERS key] *)
Definition do_smembers (k : string) (d : gmap string entry) : result (list string) :=
  match d !! k with
  | None => Ok []
  | Some (Entry (PSet ms) _) => Ok ms
  | Some (Entry (PValue _) _) => Err StoreError
  end.

Definition is_member (m : string) (ms : list string) : bool :=
  existsb (String.eqb m) ms.

Definition without (m : string) (ms : list string) : list string :=
  List.filter (fun x => negb (String.eqb m x)) ms.

(** [SADD key member] and [SREM key member]. A set that loses its last
    member is deleted. The boolean tells whether the command was accepted. *)
Definition do_command (c : pipeline_command) (d : gmap string entry)
  : bool * gmap string entry :=
  match c with
  | Sadd k m =>
      match d !! k with
      | None => (true, <[k := Entry (PSet [m]) None]> d)
      | Some (Entry (PSet ms) ttl) =>
          (true, if is_member m ms then d else <[k := Entry (PSet (ms ++ [m])) ttl]> d)
      | Some (Entry (PValue _) _) => (false, d)
      end
  | Srem k m =>
      match d !! k with
      | None => (true, d)
      | Some (Entry (PSet ms) ttl) =>
          (true, match without m ms with
                 | [] => delete k d
                 | ms' => <[k := Entry (PSet ms') ttl]> d
                 end)
      | Some (Entry (PValue _) _) => (false, d)
      end
  end.

(** [pipeline.exec()]: the commands run in the order they were enqueued,
    each on its own; a refused command does not stop the ones after it, and
    the call throws once the replies are in if any was refused. *)
Fixpoint do_exec (cs : list pipeline_command) (d : gmap string entry)
  : bool * gmap string entry :=
  match cs with
  | [] => (true, d)
  | c :: rest =>
      let '(ok, d1) := do_command c d in
      let '(oks, d2) := do_exec rest d1 in
      (ok && oks, d2)
  end.

(** Whether [k] holds a set, the one case in which [SET] is refused. *)
Definition holds_set (d : gmap string entry) (k : string) : bool :=
  match d !! k with
  | Some (Entry (PSet _) _) => true
  | _ => false
  end.

(** What [SET ... GET] answers: the value at [k], [null] when absent. *)
Definition previous_value (d : gmap string entry) (k : string) : value :=
  default VNull (value_at d k).

End Redis.
Export Redis.

(** ** The monad of the asynchronous methods *)

Definition M (A : Type) : Type := state -> result A * state.

Definition ret {A} (a : A) : M A := fun st => (Ok a, st).

Definition throw {A} (e : error) : M A := fun st => (Err e, st).

Definition bind {A B} (m : M A) (f : A -> M B) : M B :=
  fun st =>
    match m st with
    | (Ok a, st1) => f a st1
    | (Err e, st1) => (Err e, st1)
    end.

(** [try { m } catch (err) { h }] *)
Definition try_catch {A} (m : M A) (h : error -> M A) : M A :=
  fun st =>
    match m st with
    | (Ok a, st1) => (Ok a, st1)
    | (Err e, st1) => h e st1
    end.

(** A synchronous call that may throw. *)
Definition lift {A} (r : result A) : M A := fun st => (r, st).

Notation "x <- m ;; k" := (bind m (fun x => k))
  (at level 100, m at next level, right associativity).
Notation "m ;;; k" := (bind m (fun _ => k))
  (at level 100, right associativity).

(** [await this.redis.get(key)] and the other round trips. *)
Definition redis_get (k : string) : M value :=
  fun st => (do_get k (db st), emit (EGet k) st).

Definition redis_mget (ks : list string) : M (list value) :=
  fun st => (Ok (do_mget ks (db st)), emit (EMget ks) st).

Definition redis_set (k : string) (v : value) (o : set_option) : M value :=
  fun st =>
    let '(r, d) := do_set k v o (db st) in
    (r, emit (ESet k v o) (with_db d st)).

Definition redis_persist (k : string) : M unit :=
  fun st => (Ok tt, emit (EPersist k) (with_db (do_persist k (db st)) st)).

Definition redis_smembers (k : string) : M (list string) :=
  fun st => (do_smembers k (db st), emit (ESmembers k) st).

Definition pipeline_exec (cs : list pipeline_command) : M unit :=
  fun st =>
    let '(ok, d) := do_exec cs (db st) in
    ((if ok then Ok tt else Err StoreError), emit (EExec cs) (with_db d st)).

Definition console_warn : M unit := fun st => (Ok tt, emit EWarn st).

(** [await new Promise((resolve) => setTimeout(resolve, ms))] *)
Definition sleep (ms : Z) : M unit := fun st => (Ok tt, emit (ESleep ms) st).

(** [await] suspends the caller: other clients of the store may run before
    it resumes. They change the store, not this process's trace. *)
Definition others_run (f : gmap string entry -> gmap string entry) : M unit :=
  fun st => (Ok tt, with_db (f (db st)) st).

(** ** Observations on runs *)

(** The pauses among some events. *)
Definition backoffs (evs : list event) : list event :=
  List.filter (fun ev => match ev with ESleep _ => true | _ => false end) evs.

(** A computation that removes no value from the store: a key that holds
    a value before holds one after. *)
Definition keeps_values {A : Type} (m : M A) : Prop :=
  forall k st, is_Some (value_at (db st) k) -> is_Some (value_at (db (m st).2) k).

(** A computation that leaves alone every key outside [P]. *)
Definition writes_only {A : Type} (P : string -> Prop) (m : M A) : Prop :=
  forall st k, ~ P k -> db (m st).2 !! k = db st !! k.

(** Another client that writes [w] under [k] while the first attempt of an
    [update] is suspended, and nothing afterwards. *)
Definition one_write (k : string) (w : value)
  : nat -> gmap string entry -> gmap string entry :=
  fun n d =>
    match n with
    | O => <[k := Entry (PValue w) None]> d
    | S _ => d
    end.

(** ** Collaborators: the cipher and the JSON codec *)

(** A value [JSON.stringify] and [JSON.parse] carry through unchanged:
    nothing [undefined] inside, and no property listed twice in an object. *)
Fixpoint serializable (v : value) : bool :=
  match v with
  | VUndefined => false
  | VNull | VBool _ | VNum _ | VStr _ => true
  | VArr items => forallb serializable items
  | VObj props =>
      bool_decide (NoDup (map fst props)) &&
      forallb (fun kv => serializable (snd kv)) props
  end.

(** [crypto.enc.Hex.parse] reads two hexadecimal digits per byte. *)
Definition is_hex_digit (c : ascii) : bool :=
  let n := N_of_ascii c in
  ((48 <=? n)%N && (n <=? 57)%N) || ((97 <=? n)%N && (n <=? 102)%N)
  || ((65 <=? n)%N && (n <=? 70)%N).

(** The hexadecimal writing of [n] bytes. *)
Definition hex_bytes (n : nat) (s : string) : bool :=
  Nat.eqb (String.length s) (2 * n)
  && forallb is_hex_digit (String.list_ascii_of_string s).

(** A key of one of the sizes of AES: 128, 192 or 256 bits. *)
Definition aes_key (key : string) : bool :=
  hex_bytes 16 key || hex_bytes 24 key || hex_bytes 32 key.

(** An initialization vector of the size of a block: 128 bits. *)
Definition aes_iv (iv : string) : bool := hex_bytes 16 iv.

(** [aes_encrypt key iv text] is
    [crypto.AES.encrypt(text, Hex.parse(key), { iv: Hex.parse(iv), mode: CBC,
    padding: Pkcs7 }).toString()], and [aes_decrypt key iv token] is
    [crypto.AES.decrypt(token, Hex.parse(key), { ... }).toString(Utf8)],
    [None] when that throws. The cipher is assumed to decrypt what it
    encrypted when the key has a size of AES and the vector the size of a
    block: crypto-js takes the number of rounds from the length of the key,
    whatever it is, and for another length decryption does not undo
    encryption. The JSON codec is assumed to carry serializable values
    through. *)
Class Collaborators : Type := {
  aes_encrypt : string -> string -> string -> string;
  aes_decrypt : string -> string -> string -> option string;
  json_stringify : value -> string;
  json_parse : string -> option value;
  aes_decrypt_encrypt : forall key iv text,
    aes_key key = true -> aes_iv iv = true ->
    aes_decrypt key iv (aes_encrypt key iv text) = Some text;
  json_parse_stringify : forall v,
    serializable v = true -> json_parse (json_stringify v) = Some v
}.

(** ** src/tokenization.ts *)

Record Tokenizer : Type := { secretKey : string; iv : string }.

(** [constructor(secretKey, iv)]; [None] is an argument left out. *)
Definition new_Tokenizer (secretKey iv : option string) : result Tokenizer :=
  match secretKey, iv with
  | Some k, Some i =>
      if String.eqb k "" || String.eqb i "" then Err MissingSecretOrIV
      else Ok {| secretKey := k; iv := i |}
  | _, _ => Err MissingSecretOrIV
  end.

(** A tokenizer whose key and vector have the sizes the cipher works with;
    the constructor asks for no more than that they are not empty. *)
Definition well_sized (t : Tokenizer) : bool :=
  aes_key (secretKey t) && aes_iv (iv t).

Section Tokenization.
Context `{Collaborators}.

(** [toToken(payload)] *)
Definition toToken (t : Tokenizer) (payload : value) : string :=
  aes_encrypt (secretKey t) (iv t) (json_stringify payload).

(** [fromToken(token)]. The parameter is typed [string] but receives
    whatever the store answered. Given [null], crypto-js reads a property of
    [null] and throws. Given any other value that is not a string, it takes
    the value for parsed cipher parameters and decrypts its [ciphertext]
    property: there is none on the records considered here, the empty input
    decrypts to the empty string, and [JSON.parse] rejects it. *)
Definition fromToken (t : Tokenizer) (token : value) : result value :=
  match token with
  | VStr s =>
      match aes_decrypt (secretKey t) (iv t) s with
      | Some text =>
          match json_parse text with
          | Some v => Ok v
          | None => Err DecodeError
          end
      | None => Err DecodeError
      end
  | _ => Err DecodeError
  end.

End Tokenization.

(** ** src/index.ts *)

Record EncryptionMeta : Type := { m_iv : option string; m_secret : option string }.

(** The constructor's [meta] argument; [None] is a property left out. *)
Record Meta : Type := {
  m_keyPrefix : option string;
  m_enableEncryption : option EncryptionMeta;
  m_defaultTTL : option Z
}.

Record Collection : Type := {
  tokenizer : option Tokenizer;
  defaultTTL : option Z;
  indexes : list string;
  keyPrefix : string
}.

Record CollectionIndex : Type := { collection : Collection; key : string }.

(** The second argument of [update]. *)
Inductive patch : Type :=
| PatchData (data : value)
| PatchFn (cb : value -> value).

(** [constructor(redis, meta)] *)
Definition new_Collection (meta : option Meta) : result Collection :=
  let prefix :=
    match meta ≫= m_keyPrefix with
    | Some p => if String.eqb p "" then "" else p +:+ ":"
    | None => ""
    end in
  let ttl :=
    match meta ≫= m_defaultTTL with
    | Some t => if Z.eqb t 0 then None else Some t
    | None => None
    end in
  match meta ≫= m_enableEncryption with
  | Some e =>
      match new_Tokenizer (Some (default "" (m_secret e))) (Some (default "" (m_iv e))) with
      | Ok t => Ok {| tokenizer := Some t; defaultTTL := ttl; indexes := []; keyPrefix := prefix |}
      | Err err => Err err
      end
  | None => Ok {| tokenizer := None; defaultTTL := ttl; indexes := []; keyPrefix := prefix |}
  end.

(** [if (this.defaultTTL)] *)
Definition has_defaultTTL (c : Collection) : option Z :=
  match defaultTTL c with
  | Some t => if Z.eqb t 0 then None else Some t
  | None => None
  end.

(** [addIndex(indexOn)]: [this.indexes.push(indexOn)] updates the
    collection, returned here next to the new handle. *)
Definition addIndex (c : Collection) (indexOn : string)
  : result (Collection * CollectionIndex) :=
  match has_defaultTTL c with
  | Some _ => Err IndexOnExpiringCollection
  | None =>
      let c' := {| tokenizer := tokenizer c; defaultTTL := defaultTTL c;
                   indexes := indexes c ++ [indexOn]; keyPrefix := keyPrefix c |} in
      Ok (c', {| collection := c'; key := indexOn |})
  end.

(** The collections a program can hold: one the constructor built, then
    what [addIndex] made of it. *)
Inductive reachable : Collection -> Prop :=
| reachable_new (meta : option Meta) (c : Collection) :
    new_Collection meta = Ok c -> reachable c
| reachable_addIndex (c : Collection) (indexOn : string)
    (c' : Collection) (i : CollectionIndex) :
    reachable c -> addIndex c indexOn = Ok (c', i) -> reachable c'.

(** A collection without encryption, or with a well-sized tokenizer. *)
Definition well_keyed (c : Collection) : bool :=
  match tokenizer c with
  | Some t => well_sized t
  | None => true
  end.

(** [`${this.keyPrefix}${id}`] *)
Definition record_key (c : Collection) (id : value) : string :=
  keyPrefix c +:+ to_string id.

(** [`${this.keyPrefix}idx_${indexOn.toString()}:${v}`] *)
Definition index_key (c : Collection) (indexOn : string) (v : value) : string :=
  keyPrefix c +:+ "idx_" +:+ indexOn +:+ ":" +:+ to_string v.

Section Collection.
Context `{Collaborators}.

Definition decrypt (c : Collection) (data : value) : result value :=
  match tokenizer c with
  | Some t => fromToken t data
  | None => Ok data
  end.

Definition encrypt (c : Collection) (data : value) : value :=
  match tokenizer c with
  | Some t => VStr (toToken t data)
  | None => data
  end.

(** [get(id)] *)
Definition get (c : Collection) (id : value) : M value :=
  data <- redis_get (record_key c id) ;;
  if negb (truthy data) then ret VNull
  else lift (decrypt c data).

(** [datas.map((data) => ...)]: the callback runs on the elements in order,
    and the first one to throw ends the [map]. *)
Fixpoint decode_all (c : Collection) (datas : list value) : result (list value) :=
  match datas with
  | [] => Ok []
  | data :: rest =>
      match (if negb (truthy data) then Ok VNull else decrypt c data) with
      | Ok v =>
          match decode_all c rest with
          | Ok vs => Ok (v :: vs)
          | Err e => Err e
          end
      | Err e => Err e
      end
  end.

(** [getMany(ids)] *)
Definition getMany (c : Collection) (ids : list value) : M (list value) :=
  match ids with
  | [] => ret []
  | _ =>
      datas <- redis_mget (map (record_key c) ids) ;;
      lift (decode_all c datas)
  end.

(** [setex(data, ttl)]. The record [data] is an object by its type, given
    by its properties. *)
Definition setex (c : Collection) (data : list (string * value)) (ttl : Z) : M value :=
  match indexes c with
  | _ :: _ => throw SetexWithIndexes
  | [] =>
      redis_set (record_key c (field data "id")) (encrypt c (VObj data)) (Ex ttl) ;;;
      ret (VObj data)
  end.

(** The first loop of [set]: one [sadd] per index. The member is the
    primary key as the client writes it on the wire. *)
Definition sadd_commands (c : Collection) (data : list (string * value))
  : list pipeline_command :=
  map (fun indexOn =>
         Sadd (index_key c indexOn (field data indexOn))
              (to_string (field data "id")))
      (indexes c).

(** The second loop of [set]: one [srem] per index whose value differs,
    by [!==], from the previous one. *)
Definition srem_commands (c : Collection) (oldData : value)
    (data : list (string * value)) : list pipeline_command :=
  flat_map (fun indexOn =>
              if negb (strict_eq (get_prop oldData indexOn) (field data indexOn))
              then [Srem (index_key c indexOn (get_prop oldData indexOn))
                         (to_string (field data "id"))]
              else [])
           (indexes c).

(** [set(data, _expectedOld)]; [None] is the optional argument left out.
    [update] passes as [_expectedOld] what it read, of whatever shape. In the
    second loop the first read [oldData[indexOn]] throws when [oldData] is
    [null] or [undefined]; there is an index to read, since the method
    returned before when there was none. *)
Definition set (c : Collection) (data : list (string * value))
    (_expectedOld : option value) : M value :=
  match has_defaultTTL c with
  | Some ttl => setex c data ttl
  | None =>
      previous <- redis_set (record_key c (field data "id")) (encrypt c (VObj data)) KeepTtl ;;
      old <- lift (decrypt c previous) ;;
      if match _expectedOld with
         | Some expected => truthy expected && negb (isEqual old expected)
         | None => false
         end
      then throw ConcurrentUpdate
      else
        match indexes c with
        | [] => ret (VObj data)
        | _ :: _ =>
            let pipeline := sadd_commands c data in
            if negb (truthy old) then pipeline_exec pipeline ;;; ret (VObj data)
            else
              oldData <- lift (decrypt c old) ;;
              if is_nullish oldData then throw TypeError
              else
                let pipeline := pipeline ++ srem_commands c oldData data in
                if (0 <? length pipeline)%nat
                then pipeline_exec pipeline ;;; ret (VObj data)
                else ret (VObj data)
        end
  end.

(** [updatedItem] in [update]: the patch, or what the callback makes of the
    item without its [id], spread over the item. *)
Definition merge (item : value) (dataOrCb : patch) : list (string * value) :=
  let itemWithOutId := omit "id" item in
  match dataOrCb with
  | PatchFn cb => spread2 item (cb itemWithOutId)
  | PatchData data => spread2 item data
  end.

(** [update(id, dataOrCb, _retry)]. The method calls itself from its
    [catch] branch while [_retry < 3]; [fuel] bounds that recursion.
    [others n] is what other clients do to the store while attempt [n] is
    suspended between its read and its write. *)
Fixpoint update_loop (fuel : nat) (c : Collection) (id : value) (dataOrCb : patch)
    (others : nat -> gmap string entry -> gmap string entry) (_retry : nat)
  : M value :=
  match fuel with
  | O => throw NoMoreRetries
  | S fuel' =>
      item <- get c id ;;
      if negb (truthy item) then throw ItemNotFound
      else
        let updatedItem := merge item dataOrCb in
        others_run (others _retry) ;;;
        try_catch (set c updatedItem (Some item))
          (fun err =>
             if (_retry <? 3)%nat
             then console_warn ;;; sleep 100 ;;;
                  update_loop fuel' c id dataOrCb others (_retry + 1)
             else throw NoMoreRetries)
  end.

Definition update (c : Collection) (id : value) (dataOrCb : patch)
    (others : nat -> gmap string entry -> gmap string entry) (_retry : nat)
  : M value :=
  update_loop (S (3 - _retry)) c id dataOrCb others _retry.

(** [persist(id)] *)
Definition persist (c : Collection) (id : value) : M unit :=
  redis_persist (record_key c id).

(** What [@upstash/redis] hands over of a member of a set: the client
    reads each member of the reply with [JSON.parse], keeps the string when
    that throws, and also when it read a number that the language does not
    write the way the member is written. *)
Definition revive (member : string) : value :=
  match json_parse member with
  | Some (VNum n) =>
      if String.eqb (number_to_string n) member then VNum n else VStr member
  | Some v => v
  | None => VStr member
  end.

(** [CollectionIndex.getItems(value)] *)
Definition getItems (i : CollectionIndex) (v : value) : M (list value) :=
  members <- redis_smembers (index_key (collection i) (key i) v) ;;
  match members with
  | [] => ret []
  | _ =>
      items <- getMany (collection i) (map revive members) ;;
      ret (List.filter (fun item => match item with VNull => false | _ => true end) items)
  end.

End Collection.

(** The calls a client can make on a collection and on its index handles
    that reach the store. *)
Inductive call : Type :=
| CallGet (id : value)
| CallGetMany (ids : list value)
| CallSet (data : list (string * value)) (_expectedOld : option value)
| CallSetex (data : list (string * value)) (ttl : Z)
| CallUpdate (id : value) (dataOrCb : patch)
| CallPersist (id : value)
| CallGetItems (indexOn : string) (v : value).

(** No other client touches the store. *)
Definition alone : nat -> gmap string entry -> gmap string entry := fun _ d => d.

Section Calls.
Context `{Collaborators}.

(** The store after a call, whether it returned or threw. *)
Definition after (c : Collection) (op : call) (st : state) : state :=
  match op with
  | CallGet id => (get c id st).2
  | CallGetMany ids => (getMany c ids st).2
  | CallSet data _expectedOld => (set c data _expectedOld st).2
  | CallSetex data ttl => (setex c data ttl st).2
  | CallUpdate id dataOrCb => (update c id dataOrCb alone 0 st).2
  | CallPersist id => (persist c id st).2
  | CallGetItems indexOn v => (getItems {| collection := c; key := indexOn |} v st).2
  end.

(** What [getMany] makes of one answer of [MGET]. *)
Definition decoded_as (c : Collection) (data r : value) : Prop :=
  if truthy data then decrypt c data = Ok r else r = VNull.

End Calls.

(** The members of class [Collection], in the order of the source. *)
Definition Collection_members : list string :=
  [ "tokenizer"; "defaultTTL"; "indexes"; "keyPrefix"; "redis"; "decrypt"; "encrypt";
    "addIndex"; "get"; "getMany"; "set"; "setex"; "update"; "persist" ].

(** ** A reference implementation of the collaborators

    An executable stand-in for crypto-js and for the JSON codec of the
    runtime, on which the model runs on concrete stores. The JSON codec
    writes and reads the JSON text of a [value]. The cipher is not AES: it
    is a keyed transformation of the text, written in hexadecimal, which
    decryption undoes under the keys under which crypto-js undoes its
    own. *)

Module Reference.

Definition quote : ascii := "034"%char.
Definition backslash : ascii := "092"%char.

(** The hexadecimal digit of a number below 16, in lower case. *)
Definition hex_digit (n : N) : ascii :=
  if (n <? 10)%N then ascii_of_N (48 + n) else ascii_of_N (87 + n).

(** The number a hexadecimal digit stands for, in either case. *)
Definition hex_value (c : ascii) : option N :=
  let n := N_of_ascii c in
  if (48 <=? n)%N && (n <=? 57)%N then Some (n - 48)%N
  else if (97 <=? n)%N && (n <=? 102)%N then Some (n - 87)%N
  else if (65 <=? n)%N && (n <=? 70)%N then Some (n - 55)%N
  else None.

(** The two hexadecimal digits of a byte. *)
Definition hex_of_byte (c : ascii) (rest : string) : string :=
  String (hex_digit (N_of_ascii c / 16)) (String (hex_digit (N_of_ascii c mod 16)) rest).

Definition byte_of_hex (h l : ascii) : option ascii :=
  match hex_value h, hex_value l with
  | Some a, Some b => Some (ascii_of_N (16 * a + b))
  | _, _ => None
  end.

(** *** The JSON text of a value *)

Definition is_control (c : ascii) : bool := (N_of_ascii c <? 32)%N.

(** A character inside a JSON string: the quote and the backslash are
    escaped, a control character is written as [\u00XX]. *)
Definition escape_char (c : ascii) (rest : string) : string :=
  if Ascii.eqb c quote then String backslash (String quote rest)
  else if Ascii.eqb c backslash then String backslash (String backslash rest)
  else if is_control c
       then String backslash (String "u" (String "0" (String "0" (hex_of_byte c rest))))
  else String c rest.

Fixpoint escape (s : string) (rest : string) : string :=
  match s with
  | EmptyString => rest
  | String c s' => escape_char c (escape s' rest)
  end.

Definition quoted (s : string) : string :=
  String quote (escape s (String quote "")).

Definition is_undefined (v : value) : bool :=
  match v with
  | VUndefined => true
  | _ => false
  end.

(** [JSON.stringify]. An [undefined] element of an array is written
    [null]; a property whose value is [undefined] is left out. *)
Fixpoint stringify (v : value) : string :=
  match v with
  | VUndefined | VNull => "null"
  | VBool true => "true"
  | VBool false => "false"
  | VNum n => number_to_string n
  | VStr s => quoted s
  | VArr items => "[" +:+ join "," (map stringify items) +:+ "]"
  | VObj props =>
      "{" +:+
      join ","
        (flat_map (fun '(k, x) =>
                     if is_undefined x then []
                     else [quoted k +:+ ":" +:+ stringify x]) props)
      +:+ "}"
  end.

(** The characters of a JSON string up to its closing quote, and what
    follows it. *)
Fixpoint parse_chars (s : string) : option (string * string) :=
  let keep c r := match parse_chars r with
                  | Some (cs, rest) => Some (String c cs, rest)
                  | None => None
                  end in
  match s with
  | EmptyString => None
  | String c r =>
      if Ascii.eqb c quote then Some ("", r)
      else if Ascii.eqb c backslash then
        match r with
        | String e r1 =>
            if Ascii.eqb e quote then keep quote r1
            else if Ascii.eqb e backslash then keep backslash r1
            else if Ascii.eqb e "/" then keep "/"%char r1
            else if Ascii.eqb e "b" then keep "008"%char r1
            else if Ascii.eqb e "f" then keep "012"%char r1
            else if Ascii.eqb e "n" then keep "010"%char r1
            else if Ascii.eqb e "r" then keep "013"%char r1
            else if Ascii.eqb e "t" then keep "009"%char r1
            else if Ascii.eqb e "u" then
              match r1 with
              | String "0" (String "0" (String h (String l r2))) =>
                  match byte_of_hex h l with
                  | Some b => keep b r2
                  | None => None
                  end
              | _ => None
              end
            else None
        | EmptyString => None
        end
      else if is_control c then None
      else keep c r
  end.

Definition is_digit (c : ascii) : bool :=
  (48 <=? N_of_ascii c)%N && (N_of_ascii c <=? 57)%N.

Fixpoint span_digits (s : string) : string * string :=
  match s with
  | String c r =>
      if is_digit c then let '(ds, rest) := span_digits r in (String c ds, rest)
      else ("", s)
  | EmptyString => ("", "")
  end.

(** The characters of a number at the head of the text: an optional minus
    sign, and digits. *)
Definition number_token (s : string) : string * string :=
  match s with
  | String c r =>
      if Ascii.eqb c "-" then let '(ds, rest) := span_digits r in (String c ds, rest)
      else span_digits s
  | EmptyString => ("", "")
  end.

(** A number at the head of the text, accepted when its characters are the
    decimal writing of the integer they denote. *)
Definition parse_number (s : string) : option (Z * string) :=
  let '(tok, rest) := number_token s in
  match NilZero.int_of_string tok with
  | Some d =>
      let n := Z.of_int d in
      if String.eqb (number_to_string n) tok then Some (n, rest) else None
  | None => None
  end.

Fixpoint strip_prefix (word s : string) : option string :=
  match word, s with
  | EmptyString, _ => Some s
  | String a word', String b s' => if Ascii.eqb a b then strip_prefix word' s' else None
  | String _ _, EmptyString => None
  end.

Definition keyword (word : string) (v : value) (s : string) : option (value * string) :=
  match strip_prefix word s with
  | Some rest => Some (v, rest)
  | None => None
  end.

(** The value at the head of the text, and what follows it. No white space
    is read: the codec reads what [stringify] writes. Each call uses one
    unit of [fuel]; the length of the text is enough. *)
Fixpoint parse_value (fuel : nat) (s : string) : option (value * string) :=
  match fuel with
  | O => None
  | S fuel' =>
      match s with
      | EmptyString => None
      | String c r =>
          if Ascii.eqb c "n" then keyword "null" VNull s
          else if Ascii.eqb c "t" then keyword "true" (VBool true) s
          else if Ascii.eqb c "f" then keyword "false" (VBool false) s
          else if Ascii.eqb c quote then
            match parse_chars r with
            | Some (str, rest) => Some (VStr str, rest)
            | None => None
            end
          else if Ascii.eqb c "[" then
            match r with
            | String c' r' =>
                if Ascii.eqb c' "]" then Some (VArr [], r')
                else match parse_elements fuel' r with
                     | Some (items, rest) => Some (VArr items, rest)
                     | None => None
                     end
            | EmptyString => None
            end
          else if Ascii.eqb c "{" then
            match r with
            | String c' r' =>
                if Ascii.eqb c' "}" then Some (VObj [], r')
                else match parse_members fuel' r with
                     | Some (props, rest) => Some (VObj props, rest)
                     | None => None
                     end
            | EmptyString => None
            end
          else
            match parse_number s with
            | Some (n, rest) => Some (VNum n, rest)
            | None => None
            end
      end
  end
with parse_elements (fuel : nat) (s : string) : option (list value * string) :=
  match fuel with
  | O => None
  | S fuel' =>
      match parse_value fuel' s with
      | Some (v, String c r) =>
          if Ascii.eqb c "," then
            match parse_elements fuel' r with
            | Some (vs, rest) => Some (v :: vs, rest)
            | None => None
            end
          else if Ascii.eqb c "]" then Some ([v], r)
          else None
      | _ => None
      end
  end
with parse_members (fuel : nat) (s : string) : option (list (string * value) * string) :=
  match fuel with
  | O => None
  | S fuel' =>
      match s with
      | String q r =>
          if Ascii.eqb q quote then
            match parse_chars r with
            | Some (k, String colon r1) =>
                if Ascii.eqb colon ":" then
                  match parse_value fuel' r1 with
                  | Some (v, String c r2) =>
                      if Ascii.eqb c "," then
                        match parse_members fuel' r2 with
                        | Some (kvs, rest) => Some ((k, v) :: kvs, rest)
                        | None => None
                        end
                      else if Ascii.eqb c "}" then Some ([(k, v)], r2)
                      else None
                  | _ => None
                  end
                else None
            | _ => None
            end
          else None
      | EmptyString => None
      end
  end.

(** [JSON.parse]: [None] when it throws. *)
Definition parse (s : string) : option value :=
  match parse_value (String.length s) s with
  | Some (v, EmptyString) => Some v
  | _ => None
  end.

(** *** The stand-in cipher *)

Definition xor_byte (a b : ascii) : ascii :=
  match a, b with
  | Ascii a0 a1 a2 a3 a4 a5 a6 a7, Ascii b0 b1 b2 b3 b4 b5 b6 b7 =>
      Ascii (xorb a0 b0) (xorb a1 b1) (xorb a2 b2) (xorb a3 b3)
            (xorb a4 b4) (xorb a5 b5) (xorb a6 b6) (xorb a7 b7)
  end.

(** One byte out of a key or an initialization vector. *)
Fixpoint mask (s : string) : ascii :=
  match s with
  | EmptyString => zero
  | String c s' => xor_byte c (mask s')
  end.

(** Chaining over blocks of one byte: each byte of the text is combined
    with the byte of ciphertext before it, then with the key; the result is
    written in hexadecimal. *)
Fixpoint chain_encrypt (k prev : ascii) (text : string) : string :=
  match text with
  | EmptyString => ""
  | String p text' =>
      let c := xor_byte (xor_byte p prev) k in
      hex_of_byte c (chain_encrypt k c text')
  end.

Fixpoint chain_decrypt (k prev : ascii) (token : string) : option string :=
  match token with
  | EmptyString => Some ""
  | String h (String l token') =>
      match byte_of_hex h l with
      | Some c =>
          match chain_decrypt k c token' with
          | Some text => Some (String (xor_byte (xor_byte c k) prev) text)
          | None => None
          end
      | None => None
      end
  | String _ EmptyString => None
  end.

Definition encrypt_text (key iv text : string) : string :=
  chain_encrypt (mask key) (mask iv) text.

(** crypto-js takes the number of rounds from the length of the key in
    words of 32 bits, [key.sigBytes / 4], whatever that is. Under a key that
    is not a whole number of words, such as the two bytes [a1b2], the round
    keys of decryption do not match the rounds encryption ran, and no text
    that went in is read back. *)
Definition whole_words (key : string) : bool :=
  negb (Nat.eqb (String.length key) 0) && Nat.eqb (String.length key mod 8) 0.

Definition decrypt_text (key iv token : string) : option string :=
  if whole_words key then chain_decrypt (mask key) (mask iv) token else None.

End Reference.

(** ** Concrete collections, records and stores *)

Module Scenario.

Definition no_store : state := State ∅ [].

(** [new Collection(redis, { keyPrefix: "customers" })] *)
Definition customers : Collection :=
  {| tokenizer := None; defaultTTL := None; indexes := []; keyPrefix := "customers:" |}.

(** [new Collection(redis, { keyPrefix: "customers", defaultTTL: 600 })] *)
Definition sessions : Collection :=
  {| tokenizer := None; defaultTTL := Some 600; indexes := []; keyPrefix := "customers:" |}.

(** A key of 256 bits and an initialization vector of 128 bits, in
    hexadecimal. *)
Definition secret : string :=
  "5f1d2c3b4a69788796a5b4c3d2e1f00112233445566778899aabbccddeeff0a1".
Definition vector : string := "0a1b2c3d4e5f60718293a4b5c6d7e8f9".

(** [new Collection(redis, { keyPrefix: "customers",
    enableEncryption: { secret, iv: vector } })] *)
Definition vault : Collection :=
  {| tokenizer := Some {| secretKey := secret; iv := vector |}; defaultTTL := None;
     indexes := []; keyPrefix := "customers:" |}.

Definition free : list (string * value) := [("id", VStr "c1"); ("plan", VStr "free")].
Definition pro : list (string * value) := [("id", VStr "c1"); ("plan", VStr "pro")].
Definition team : list (string * value) := [("id", VStr "c1"); ("plan", VStr "team")].

(** The store in which [customers:c1] holds [v], without expiry. *)
Definition holding (v : value) : state :=
  State (<["customers:c1" := Entry (PValue v) None]> ∅) [].

(** [customers] after [addIndex("plan")], then after [addIndex("city")]. *)
Definition by_plan : Collection :=
  {| tokenizer := None; defaultTTL := None; indexes := ["plan"];
     keyPrefix := "customers:" |}.

Definition by_plan_and_city : Collection :=
  {| tokenizer := None; defaultTTL := None; indexes := ["plan"; "city"];
     keyPrefix := "customers:" |}.

(** [vault] after [addIndex("plan")]. *)
Definition sealed : Collection :=
  {| tokenizer := Some {| secretKey := secret; iv := vector |}; defaultTTL := None;
     indexes := ["plan"]; keyPrefix := "customers:" |}.

Definition berlin_free : list (string * value) :=
  [("id", VStr "c1"); ("plan", VStr "free"); ("city", VStr "berlin")].

(** A record that counts visits, and the callback that counts one more. *)
Definition seen (n : Z) : list (string * value) :=
  [("id", VStr "c1"); ("visits", VNum n)].

Definition visit (item : value) : value :=
  match get_prop item "visits" with
  | VNum n => VObj [("visits", VNum (n + 1))]
  | _ => VObj [("visits", VNum 1)]
  end.


(** A store shared with another collection. *)
Definition shared : state :=
  State (<["orders:o1" := Entry (PValue (VStr "paid")) (Some 60)]>
           (<["customers:c1" := Entry (PValue (VObj free)) None]> ∅)) [].

(** A store whose index entry of the city names a record that is gone. *)
Definition stale : state :=
  State (<["customers:idx_city:berlin" := Entry (PSet ["c1"; "c7"]) None]>
           (<["customers:c1" := Entry (PValue (VObj berlin_free)) None]> ∅)) [].

End Scenario.

(** * Induction on values *)

(** Induction on a value, with the hypothesis on every element of an array
    and on every property of an object. *)
Lemma value_ind_nested (P : value -> Prop) :
  P VUndefined -> P VNull -> (forall b, P (VBool b)) -> (forall n, P (VNum n)) ->
  (forall s, P (VStr s)) ->
  (forall items, Forall P items -> P (VArr items)) ->
  (forall props, Forall (fun kv => P (snd kv)) props -> P (VObj props)) ->
  forall v, P v.
Proof.
  intros Hu Hn Hb Hz Hs Ha Ho. fix IH 1.
  intros [| |b|n|s|items|props];
    [exact Hu|exact Hn|apply Hb|apply Hz|apply Hs| |].
  - apply Ha. induction items as [|x items IHitems]; constructor; [apply IH|exact IHitems].
  - apply Ho. induction props as [|[k x] props IHprops]; constructor; [apply IH|exact IHprops].
Qed.

(** * The laws of the reference implementation *)

Module ReferenceLaws.
Import Reference.

#[local] Arguments String.append !_ _ / : simpl nomatch.

Lemma byte_of_hex_of_byte (c : ascii) :
  byte_of_hex (hex_digit (N_of_ascii c / 16)) (hex_digit (N_of_ascii c mod 16)) = Some c.
Proof. destruct c as [[] [] [] [] [] [] [] []]; vm_compute; reflexivity. Qed.

Lemma xor_byte_cancel (a b : ascii) : xor_byte (xor_byte a b) b = a.
Proof.
  destruct a, b. simpl.
  repeat match goal with
         | |- context [xorb (xorb ?x ?y) ?y] =>
             replace (xorb (xorb x y) y) with x by (destruct x, y; reflexivity)
         end.
  reflexivity.
Qed.

Lemma chain_decrypt_encrypt (k prev : ascii) (text : string) :
  chain_decrypt k prev (chain_encrypt k prev text) = Some text.
Proof.
  revert prev. induction text as [|p text IH]; intros prev; [reflexivity|].
  cbn [chain_encrypt]. unfold hex_of_byte. cbn [chain_decrypt].
  rewrite byte_of_hex_of_byte, IH, !xor_byte_cancel. reflexivity.
Qed.

Lemma append_assoc (a b c : string) : (a +:+ b) +:+ c = a +:+ (b +:+ c).
Proof. induction a as [|x a IH]; simpl; [reflexivity|]. rewrite IH. reflexivity. Qed.

Lemma length_append (a b : string) :
  String.length (a +:+ b) = (String.length a + String.length b)%nat.
Proof. induction a as [|x a IH]; simpl; [reflexivity|]. rewrite IH. reflexivity. Qed.

Lemma escape_append (s r t : string) : escape s r +:+ t = escape s (r +:+ t).
Proof.
  induction s as [|c s IH]; simpl; [reflexivity|].
  unfold escape_char, hex_of_byte.
  destruct (Ascii.eqb c quote); [simpl; rewrite IH; reflexivity|].
  destruct (Ascii.eqb c backslash); [simpl; rewrite IH; reflexivity|].
  destruct (is_control c); simpl; rewrite IH; reflexivity.
Qed.

Lemma parse_chars_escape (s rest : string) :
  parse_chars (escape s (String quote rest)) = Some (s, rest).
Proof.
  induction s as [|c s IH]; [reflexivity|].
  cbn [escape]. unfold escape_char.
  destruct (Ascii.eqb_spec c quote) as [->|Hq].
  { cbn. rewrite IH. reflexivity. }
  apply Ascii.eqb_neq in Hq.
  destruct (Ascii.eqb_spec c backslash) as [->|Hb].
  { cbn. rewrite IH. reflexivity. }
  apply Ascii.eqb_neq in Hb.
  destruct (is_control c) eqn:Hc.
  { unfold hex_of_byte. cbn. rewrite byte_of_hex_of_byte, IH. reflexivity. }
  cbn [parse_chars]. rewrite Hq, Hb, Hc, IH. reflexivity.
Qed.

(** What may follow a number: not a digit. *)
Definition follows (rest : string) : Prop :=
  match rest with
  | String c _ => is_digit c = false
  | EmptyString => True
  end.

Lemma span_digits_uint (u : Decimal.uint) (rest : string) :
  follows rest ->
  span_digits (NilEmpty.string_of_uint u +:+ rest) = (NilEmpty.string_of_uint u, rest).
Proof.
  intros Hrest. induction u; cbn; try (rewrite IHu; reflexivity).
  destruct rest as [|c r]; [reflexivity|]. simpl in Hrest. cbn. rewrite Hrest. reflexivity.
Qed.

Lemma number_token_uint (u : Decimal.uint) (rest : string) :
  u <> Decimal.Nil -> follows rest ->
  number_token (NilEmpty.string_of_uint u +:+ rest) = (NilEmpty.string_of_uint u, rest).
Proof.
  intros Hu Hrest. pose proof (span_digits_uint u rest Hrest) as Hspan.
  destruct u; [contradiction| | | | | | | | | |]; exact Hspan.
Qed.

Lemma string_of_uint_nonnil (u : Decimal.uint) :
  u <> Decimal.Nil -> NilZero.string_of_uint u = NilEmpty.string_of_uint u.
Proof. destruct u; [contradiction| | | | | | | | | |]; reflexivity. Qed.

Lemma number_token_to_string (n : Z) (rest : string) :
  follows rest ->
  number_token (number_to_string n +:+ rest) = (number_to_string n, rest).
Proof.
  intros Hrest. unfold number_to_string. destruct n as [|p|p]; cbn [Z.to_int NilZero.string_of_int].
  - exact (number_token_uint (Decimal.D0 Decimal.Nil) rest ltac:(discriminate) Hrest).
  - pose proof (Unsigned.to_uint_nonnil p) as Hp.
    rewrite (string_of_uint_nonnil _ Hp). apply number_token_uint; assumption.
  - pose proof (Unsigned.to_uint_nonnil p) as Hp.
    rewrite (string_of_uint_nonnil _ Hp).
    cbn. rewrite (span_digits_uint _ _ Hrest). reflexivity.
Qed.

Lemma parse_number_to_string (n : Z) (rest : string) :
  follows rest -> parse_number (number_to_string n +:+ rest) = Some (n, rest).
Proof.
  intros Hrest. unfold parse_number. rewrite (number_token_to_string n rest Hrest).
  unfold number_to_string at 1.
  rewrite NilZero.isi.
  - rewrite DecimalZ.of_to. fold (number_to_string n). rewrite String.eqb_refl. reflexivity.
  - destruct n; simpl; try discriminate. intros [= Hp]. exact (Unsigned.to_uint_nonnil _ Hp).
  - destruct n; simpl; try discriminate. intros [= Hp]. exact (Unsigned.to_uint_nonnil _ Hp).
Qed.

(** [v] is read back from its text, whatever follows. *)
Definition reads_back (v : value) : Prop :=
  forall rest fuel,
    follows rest -> (String.length (stringify v) <= fuel)%nat ->
    parse_value fuel (stringify v +:+ rest) = Some (v, rest).

(** The characters on which [parse_value] does not try a number. *)
Definition opens (c : ascii) : bool :=
  Ascii.eqb c "n" || Ascii.eqb c "t" || Ascii.eqb c "f" || Ascii.eqb c quote
  || Ascii.eqb c "[" || Ascii.eqb c "{".

(** The characters that end an array or an object. *)
Definition closes (c : ascii) : bool :=
  Ascii.eqb c "]" || Ascii.eqb c "}".

Lemma number_head (n : Z) :
  exists c s, number_to_string n = String c s /\ opens c = false /\ closes c = false.
Proof.
  unfold number_to_string. destruct n as [|p|p]; cbn [Z.to_int NilZero.string_of_int].
  - exists "0"%char, "". repeat split; reflexivity.
  - pose proof (Unsigned.to_uint_nonnil p) as Hp.
    destruct (Pos.to_uint p); [contradiction| | | | | | | | | |];
      eexists _, _; (repeat split; reflexivity).
  - exists "-"%char, (NilZero.string_of_uint (Pos.to_uint p)). repeat split; reflexivity.
Qed.

Lemma stringify_head (v : value) :
  exists c s, stringify v = String c s /\ closes c = false.
Proof.
  destruct v as [| |[]|n|str|items|props]; try (eexists _, _; split; reflexivity).
  destruct (number_head n) as (c & s & Hn & _ & Hc). exists c, s. split; assumption.
Qed.

Lemma parse_elements_join (items : list value) :
  items <> [] -> Forall reads_back items ->
  forall rest fuel,
    (String.length (join "," (map stringify items)) < fuel)%nat ->
    parse_elements fuel (join "," (map stringify items) +:+ String "]" rest)
    = Some (items, rest).
Proof.
  induction items as [|x l IH]; [contradiction|]. intros _ Hall rest fuel Hfuel.
  inversion Hall as [|? ? Hx Hl]; subst.
  destruct fuel as [|fuel]; [lia|]. cbn [parse_elements].
  destruct l as [|y l'].
  - cbn [map join] in *. rewrite (Hx (String "]" rest) fuel); [reflexivity|reflexivity|lia].
  - change (join "," (map stringify (x :: y :: l')))
      with (stringify x +:+ "," +:+ join "," (map stringify (y :: l'))) in *.
    rewrite !length_append in Hfuel. cbn [String.length] in Hfuel.
    rewrite !append_assoc.
    change ("," +:+ ?t) with (String "," t).
    rewrite (Hx _ fuel); [|reflexivity|lia]. cbn.
    rewrite IH; [reflexivity|discriminate|exact Hl|lia].
Qed.

(** The text of a property. *)
Definition member (kv : string * value) : string :=
  quoted (fst kv) +:+ ":" +:+ stringify (snd kv).

Lemma parse_members_join (props : list (string * value)) :
  props <> [] -> Forall (fun kv => reads_back (snd kv)) props ->
  forall rest fuel,
    (String.length (join "," (map member props)) < fuel)%nat ->
    parse_members fuel (join "," (map member props) +:+ String "}" rest)
    = Some (props, rest).
Proof.
  induction props as [|[k x] l IH]; [contradiction|]. intros _ Hall rest fuel Hfuel.
  inversion Hall as [|? ? Hx Hl]; subst. simpl in Hx.
  destruct fuel as [|fuel]; [lia|].
  assert (Hmember : forall t, member (k, x) +:+ t
            = String quote (escape k (String quote (String ":" (stringify x +:+ t))))).
  { intros t. unfold member, quoted. cbn [fst snd].
    rewrite !append_assoc. cbn [String.append]. rewrite escape_append. reflexivity. }
  assert (Hlen : (String.length (stringify x) < String.length (member (k, x)))%nat).
  { unfold member. cbn [fst snd]. rewrite !length_append. cbn [String.length]. lia. }
  destruct l as [|y l'].
  - cbn [map join] in *. rewrite Hmember. cbn [parse_members].
    change (Ascii.eqb quote quote) with true. cbn iota.
    rewrite parse_chars_escape. cbn.
    rewrite (Hx (String "}" rest) fuel); [reflexivity|reflexivity|lia].
  - change (join "," (map member ((k, x) :: y :: l')))
      with (member (k, x) +:+ "," +:+ join "," (map member (y :: l'))) in *.
    rewrite !length_append in Hfuel. cbn [String.length] in Hfuel.
    rewrite !append_assoc. rewrite Hmember. cbn [parse_members].
    change (Ascii.eqb quote quote) with true. cbn iota.
    rewrite parse_chars_escape. cbn.
    rewrite (Hx _ fuel); [|reflexivity|lia]. cbn.
    rewrite IH; [reflexivity|discriminate|exact Hl|lia].
Qed.

Lemma members_of_serializable (props : list (string * value)) :
  forallb (fun kv => serializable (snd kv)) props = true ->
  flat_map (fun '(k, x) => if is_undefined x then []
                           else [quoted k +:+ ":" +:+ stringify x]) props
  = map member props.
Proof.
  induction props as [|[k x] l IH]; [reflexivity|]. cbn [forallb flat_map map snd].
  intros [Hx Hl]%andb_prop. rewrite (IH Hl).
  destruct x; [discriminate| | | | | |]; reflexivity.
Qed.

Lemma join_head (items : list value) :
  items <> [] ->
  exists c s, join "," (map stringify items) = String c s /\ closes c = false.
Proof.
  destruct items as [|x l]; [contradiction|]. intros _.
  destruct (stringify_head x) as (c & s & Hx & Hc).
  destruct l as [|y l'].
  - exists c, s. split; assumption.
  - change (join "," (map stringify (x :: y :: l')))
      with (stringify x +:+ "," +:+ join "," (map stringify (y :: l'))).
    rewrite Hx. eexists c, _. split; [reflexivity|exact Hc].
Qed.

Lemma serializable_reads_back (v : value) : serializable v = true -> reads_back v.
Proof.
  induction v as [| |b|n|str|items IH|props IH] using value_ind_nested;
    intros Hv rest fuel Hrest Hfuel; [discriminate| | | | | |];
    (destruct fuel as [|fuel];
     [match type of Hfuel with
      | (String.length (stringify ?w) <= _)%nat =>
          destruct (stringify_head w) as (c0 & s0 & Hw & _); rewrite Hw in Hfuel;
          cbn [String.length] in Hfuel; lia
      end|]).
  - reflexivity.
  - destruct b; reflexivity.
  - destruct (number_head n) as (c & s & Hn & Hc & _).
    apply orb_false_elim in Hc as [Hc H6]. apply orb_false_elim in Hc as [Hc H5].
    apply orb_false_elim in Hc as [Hc H4]. apply orb_false_elim in Hc as [Hc H3].
    apply orb_false_elim in Hc as [H1 H2].
    pose proof (parse_number_to_string n rest Hrest) as Hp.
    cbn [stringify]. rewrite Hn in *. cbn [String.append] in *. cbn [parse_value].
    rewrite H1, H2, H3, H4, H5, H6, Hp. reflexivity.
  - cbn [stringify]. unfold quoted. cbn [String.append]. rewrite escape_append.
    cbn [String.append parse_value].
    change (Ascii.eqb quote "n") with false. change (Ascii.eqb quote "t") with false.
    change (Ascii.eqb quote "f") with false. change (Ascii.eqb quote quote) with true.
    cbn iota. rewrite parse_chars_escape. reflexivity.
  - cbn [stringify serializable] in *.
    assert (Hall : Forall reads_back items).
    { clear -IH Hv. induction IH as [|y l' Hy Hl IHl]; [constructor|].
      cbn [forallb] in Hv. apply andb_prop in Hv as [Hy' Hl']. constructor; auto. }
    destruct items as [|x l]; [reflexivity|].
    rewrite !length_append in Hfuel. cbn [String.length String.append] in Hfuel.
    rewrite !append_assoc. cbn [String.append].
    destruct (join_head (x :: l) ltac:(discriminate)) as (c & s & Hj & Hc).
    apply orb_false_elim in Hc as [Hc _].
    assert (Hel : parse_elements fuel (join "," (map stringify (x :: l)) +:+ String "]" rest)
                  = Some (x :: l, rest)).
    { apply parse_elements_join; [discriminate|exact Hall|lia]. }
    rewrite Hj in Hel |- *. cbn [String.append parse_value] in *.
    rewrite Hc, Hel. reflexivity.
  - cbn [stringify serializable] in *. apply andb_prop in Hv as [_ Hv].
    rewrite (members_of_serializable props Hv) in *.
    assert (Hall : Forall (fun kv => reads_back (snd kv)) props).
    { clear -IH Hv. induction IH as [|y l' Hy Hl IHl]; [constructor|].
      cbn [forallb] in Hv. apply andb_prop in Hv as [Hy' Hl']. constructor; auto. }
    destruct props as [|[k x] l]; [reflexivity|].
    rewrite !length_append in Hfuel. cbn [String.length String.append] in Hfuel.
    rewrite !append_assoc. cbn [String.append].
    assert (Hel : parse_members fuel (join "," (map member ((k, x) :: l)) +:+ String "}" rest)
                  = Some ((k, x) :: l, rest)).
    { apply parse_members_join; [discriminate|exact Hall|lia]. }
    assert (Hj : exists s, join "," (map member ((k, x) :: l)) = String quote s).
    { destruct l as [|y l']; cbn [map join]; unfold member at 1, quoted; cbn [fst String.append];
        eexists; reflexivity. }
    destruct Hj as [s Hj]. rewrite Hj in Hel |- *. cbn [String.append parse_value] in *.
    change (Ascii.eqb quote "}") with false. cbn iota.
    rewrite Hel. reflexivity.
Qed.

(** [JSON.parse(JSON.stringify(v))] is [v] for a serializable [v]. *)
Lemma parse_stringify (v : value) :
  serializable v = true -> parse (stringify v) = Some v.
Proof.
  intros Hv. unfold parse.
  pose proof (serializable_reads_back v Hv "" (String.length (stringify v)) I (le_n _)) as Hp.
  assert (Hnil : forall t, t +:+ "" = t).
  { induction t as [|c t IHt]; cbn; [reflexivity|]. rewrite IHt. reflexivity. }
  rewrite Hnil in Hp. rewrite Hp. reflexivity.
Qed.

Lemma aes_key_whole_words (key : string) : aes_key key = true -> whole_words key = true.
Proof.
  unfold aes_key, hex_bytes, whole_words. intros Hkey.
  assert (Hlen : String.length key = 32%nat \/ String.length key = 48%nat
                 \/ String.length key = 64%nat).
  { apply orb_prop in Hkey as [Hkey|Hkey]; [apply orb_prop in Hkey as [Hkey|Hkey]|];
      apply andb_prop in Hkey as [Hlen _]; apply Nat.eqb_eq in Hlen; auto. }
  destruct Hlen as [-> | [-> | ->]]; reflexivity.
Qed.

Lemma decrypt_encrypt_text (key iv text : string) :
  aes_key key = true -> aes_iv iv = true ->
  decrypt_text key iv (encrypt_text key iv text) = Some text.
Proof.
  intros Hkey _. unfold decrypt_text. rewrite (aes_key_whole_words _ Hkey).
  apply chain_decrypt_encrypt.
Qed.

(** The collaborators, as implemented here. *)
Definition collaborators : Collaborators :=
  {| aes_encrypt := encrypt_text;
     aes_decrypt := decrypt_text;
     json_stringify := stringify;
     json_parse := parse;
     aes_decrypt_encrypt := decrypt_encrypt_text;
     json_parse_stringify := parse_stringify |}.

End ReferenceLaws.

(** * Properties *)

(** ** The store *)

Lemma do_set_KeepTtl (k : string) (v : value) (d : gmap string entry) :
  holds_set d k = false ->
  do_set k v KeepTtl d
  = (Ok (previous_value d k), <[k := Entry (PValue v) (ttl_of d k)]> d).
Proof.
  unfold holds_set, previous_value, value_at, ttl_of, do_set.
  destruct (d !! k) as [[[old|ms] ttl]|]; simpl; intros Hk; try discriminate; reflexivity.
Qed.

Lemma do_set_Ex (k : string) (v : value) (seconds : Z) (d : gmap string entry) :
  holds_set d k = false -> 0 < seconds ->
  do_set k v (Ex seconds) d
  = (Ok (previous_value d k), <[k := Entry (PValue v) (Some seconds)]> d).
Proof.
  unfold holds_set, previous_value, value_at, do_set. intros Hk Hs.
  destruct (Z.leb_spec seconds 0) as [Hle|_]; [lia|].
  destruct (d !! k) as [[[old|ms] ttl]|]; simpl; try discriminate; reflexivity.
Qed.

Lemma do_set_refused (k : string) (v : value) (o : set_option) (d : gmap string entry) :
  holds_set d k = true -> do_set k v o d = (Err StoreError, d).
Proof.
  unfold holds_set, do_set.
  destruct (d !! k) as [[[old|ms] ttl]|]; try discriminate; intros _.
  destruct o; [reflexivity|]. destruct (seconds <=? 0); reflexivity.
Qed.

Lemma ttl_of_insert_eq (k : string) (e : entry) (d : gmap string entry) :
  ttl_of (<[k := e]> d) k = e_ttl e.
Proof. unfold ttl_of. rewrite lookup_insert_eq. reflexivity. Qed.

Lemma value_at_insert_eq (k : string) (v : value) (ttl : option Z) (d : gmap string entry) :
  value_at (<[k := Entry (PValue v) ttl]> d) k = Some v.
Proof. unfold value_at. rewrite lookup_insert_eq. reflexivity. Qed.

(** Set commands leave a key that holds a value as it is. *)
Lemma do_command_value_frame (c : pipeline_command) (d : gmap string entry)
    (k : string) (v : value) (ttl : option Z) :
  d !! k = Some (Entry (PValue v) ttl) ->
  (do_command c d).2 !! k = Some (Entry (PValue v) ttl).
Proof.
  intros Hk. destruct c as [k' m|k' m]; simpl.
  - destruct (decide (k' = k)) as [->|Hne].
    + rewrite Hk. exact Hk.
    + destruct (d !! k') as [[[w|ms] t]|]; simpl; try exact Hk.
      * destruct (is_member m ms); [exact Hk|]. rewrite lookup_insert_ne; auto.
      * rewrite lookup_insert_ne; auto.
  - destruct (decide (k' = k)) as [->|Hne].
    + rewrite Hk. exact Hk.
    + destruct (d !! k') as [[[w|ms] t]|]; simpl; try exact Hk.
      destruct (without m ms).
      * rewrite lookup_delete_ne; auto.
      * rewrite lookup_insert_ne; auto.
Qed.

Lemma do_exec_value_frame (cs : list pipeline_command) (d : gmap string entry)
    (k : string) (v : value) (ttl : option Z) :
  d !! k = Some (Entry (PValue v) ttl) ->
  (do_exec cs d).2 !! k = Some (Entry (PValue v) ttl).
Proof.
  revert d. induction cs as [|c cs IH]; intros d Hk; simpl; [exact Hk|].
  pose proof (do_command_value_frame c d k v ttl Hk) as Hc.
  destruct (do_command c d) as [ok d1]. simpl in Hc.
  specialize (IH d1 Hc). destruct (do_exec cs d1) as [oks d2]. exact IH.
Qed.

Section Claims.
Context `{Collaborators}.

(** *** Writes, with and without expiry *)

(** The shape of every run of [set] on a collection without default
    time-to-live: one [SET ... KEEPTTL GET], then at most one pipeline. *)
Lemma set_without_ttl_runs (c : Collection) (data : list (string * value)) (exp : option value)
    (st st' : state) (r : result value) :
  let k := record_key c (field data "id") in
  let tok := encrypt c (VObj data) in
  has_defaultTTL c = None ->
  set c data exp st = (r, st') ->
  exists evs,
    trace st' = trace st ++ ESet k tok KeepTtl :: evs /\
    (holds_set (db st) k = true -> r = Err StoreError /\ db st' = db st /\ evs = []) /\
    (holds_set (db st) k = false ->
       exists cs,
         db st' = (do_exec cs (<[k := Entry (PValue tok) (ttl_of (db st) k)]> (db st))).2
         /\ (evs = [] \/ evs = [EExec cs])).
Proof.
  intros k tok Httl Hset. unfold set in Hset. rewrite Httl in Hset.
  unfold bind at 1, redis_set in Hset. fold k tok in Hset.
  destruct (holds_set (db st) k) eqn:Hk.
  - rewrite (do_set_refused _ _ _ _ Hk) in Hset. injection Hset as <- <-.
    exists []. split; [reflexivity|]. split; [auto|intro; discriminate].
  - rewrite (do_set_KeepTtl _ _ _ Hk) in Hset.
    set (d1 := <[k := _]> (db st)) in *.
    set (st1 := emit (ESet k tok KeepTtl) (with_db d1 st)) in *.
    assert (Hstop : forall r0, (r0, st1) = (r, st') -> exists evs,
              trace st' = trace st ++ ESet k tok KeepTtl :: evs /\
              (false = true -> r = Err StoreError /\ db st' = db st /\ evs = []) /\
              (false = false -> exists cs,
                 db st' = (do_exec cs d1).2 /\ (evs = [] \/ evs = [EExec cs]))).
    { intros r0 E. injection E as <- <-. exists []. split; [reflexivity|].
      split; [intro; discriminate|]. intros _. exists []. auto. }
    assert (Hexec : forall cs,
              (bind (pipeline_exec cs) (fun _ => ret (VObj data))) st1 = (r, st') -> exists evs,
              trace st' = trace st ++ ESet k tok KeepTtl :: evs /\
              (false = true -> r = Err StoreError /\ db st' = db st /\ evs = []) /\
              (false = false -> exists cs0,
                 db st' = (do_exec cs0 d1).2 /\ (evs = [] \/ evs = [EExec cs0]))).
    { intros cs E. unfold bind, pipeline_exec, ret in E. simpl db in E.
      destruct (do_exec cs d1) as [ok d2] eqn:Hex.
      exists [EExec cs]. destruct ok; injection E as <- <-; simpl; rewrite <- app_assoc;
        (split; [reflexivity|]; split; [intro; discriminate|]; intros _; exists cs;
         rewrite Hex; auto). }
    unfold lift, bind at 1 in Hset.
    destruct (decrypt c (previous_value (db st) k)) as [old|e]; [|eauto].
    unfold bind at 1 in Hset.
    destruct (match exp with Some expected => _ | None => false end); [eauto|].
    destruct (indexes c) as [|i0 is0] eqn:Hidx; [eauto|].
    destruct (negb (truthy old)); [eauto|].
    unfold bind at 1 in Hset.
    destruct (decrypt c old) as [oldData|e]; [|eauto].
    destruct (is_nullish oldData); [eauto|].
    destruct (0 <? _)%nat; eauto.
Qed.

(** C1, as amended. On a collection without default time-to-live, when the
    store accepts the write, the previous token decodes, and the decoded
    value is not deep-equal to the expected one, [set] raises the
    concurrent-update error; the record's key then already holds the new
    token, with the expiry it had, and the only round trip made is the
    primary write: no index command was issued. *)
Theorem set_rejects_after_the_write
    (c : Collection) (data : list (string * value)) (expected old : value)
    (st : state) :
  let k := record_key c (field data "id") in
  has_defaultTTL c = None ->
  holds_set (db st) k = false ->
  decrypt c (previous_value (db st) k) = Ok old ->
  truthy expected = true ->
  isEqual old expected = false ->
  exists st',
    set c data (Some expected) st = (Err ConcurrentUpdate, st') /\
    value_at (db st') k = Some (encrypt c (VObj data)) /\
    ttl_of (db st') k = ttl_of (db st) k /\
    trace st' = trace st ++ [ESet k (encrypt c (VObj data)) KeepTtl].
Proof.
  intros k Httl Hk Hold Hexp Hne.
  eexists. split.
  - unfold set. rewrite Httl. unfold bind, redis_set. fold k.
    rewrite (do_set_KeepTtl _ _ _ Hk). unfold lift. rewrite Hold.
    rewrite Hexp, Hne. reflexivity.
  - simpl. unfold value_at, ttl_of at 1. rewrite lookup_insert_eq. simpl. rewrite ttl_of_insert_eq. auto.
Qed.

(** C8. On a collection without default time-to-live, [set] leaves the
    expiry of the record's key as it was, whatever else the call does;
    [setex], when the store accepts the write, puts the explicit
    time-to-live on the key and returns its argument, the previous value
    being neither decoded nor looked at. *)
Theorem set_keeps_the_expiry_and_setex_replaces_it
    (c : Collection) (data : list (string * value)) (st : state) :
  let k := record_key c (field data "id") in
  (has_defaultTTL c = None ->
   forall exp, ttl_of (db (set c data exp st).2) k = ttl_of (db st) k) /\
  (forall ttl, indexes c = [] -> 0 < ttl -> holds_set (db st) k = false ->
   exists st',
     setex c data ttl st = (Ok (VObj data), st') /\
     ttl_of (db st') k = Some ttl /\
     value_at (db st') k = Some (encrypt c (VObj data)) /\
     trace st' = trace st ++ [ESet k (encrypt c (VObj data)) (Ex ttl)]).
Proof.
  intros k. split.
  - intros Httl exp. destruct (set c data exp st) as [r st'] eqn:Hset.
    destruct (set_without_ttl_runs _ _ _ _ _ _ Httl Hset) as (evs & _ & Hrefused & Hwritten).
    fold k in Hrefused, Hwritten. simpl.
    destruct (holds_set (db st) k) eqn:Hk.
    + destruct (Hrefused eq_refl) as (_ & -> & _). reflexivity.
    + destruct (Hwritten eq_refl) as (cs & -> & _).
      unfold ttl_of at 1.
      rewrite (do_exec_value_frame cs _ k (encrypt c (VObj data)) (ttl_of (db st) k)).
      * reflexivity.
      * apply lookup_insert_eq.
  - intros ttl Hidx Hpos Hk. eexists. split.
    + unfold setex. rewrite Hidx. unfold bind, redis_set. fold k.
      rewrite (do_set_Ex _ _ _ _ Hk Hpos). reflexivity.
    + simpl. rewrite ttl_of_insert_eq, value_at_insert_eq. auto.
Qed.

Lemma hex_bytes_nonempty (n : nat) (s : string) :
  hex_bytes (S n) s = true -> s <> "".
Proof. intros Hs ->. discriminate Hs. Qed.

Lemma aes_key_nonempty (key : string) : aes_key key = true -> key <> "".
Proof.
  unfold aes_key. intros Hkey.
  apply orb_prop in Hkey as [Hkey|Hkey];
    [apply orb_prop in Hkey as [Hkey|Hkey]|]; exact (hex_bytes_nonempty _ _ Hkey).
Qed.

(** C9, as amended. A tokenizer built from a key of a size of AES (128,
    192 or 256 bits) and an initialization vector of 128 bits, both written
    in hexadecimal, decodes every token it made of a serializable value back
    to that value; building a tokenizer fails when the key or the vector is
    left out or empty. *)
Theorem tokenizer_round_trip (secret vector : option string) :
  (forall k i, secret = Some k -> vector = Some i ->
   aes_key k = true -> aes_iv i = true ->
   exists t,
     new_Tokenizer secret vector = Ok t /\
     forall v, serializable v = true -> fromToken t (VStr (toToken t v)) = Ok v) /\
  (secret = None \/ secret = Some "" \/ vector = None \/ vector = Some "" ->
   new_Tokenizer secret vector = Err MissingSecretOrIV).
Proof.
  split.
  - intros k i -> -> Hk Hi. exists {| secretKey := k; iv := i |}. split.
    + unfold new_Tokenizer.
      destruct (String.eqb_spec k "") as [Hempty|_];
        [contradiction (aes_key_nonempty k Hk)|].
      destruct (String.eqb_spec i "") as [Hempty|_];
        [contradiction (hex_bytes_nonempty _ i Hi)|]. reflexivity.
    + intros v Hv. unfold fromToken, toToken. simpl.
      rewrite (aes_decrypt_encrypt _ _ _ Hk Hi), (json_parse_stringify v Hv).
      reflexivity.
  - unfold new_Tokenizer. intros [-> | [-> | [-> | ->]]]; try reflexivity.
    + destruct vector; reflexivity.
    + destruct secret as [k|]; [|reflexivity]. reflexivity.
    + destruct secret as [k|]; [|reflexivity]. simpl.
      destruct (String.eqb k ""); reflexivity.
Qed.

(** C10. A configured default time-to-live of 0 builds the collection that
    no default time-to-live builds. On it [addIndex] succeeds, and [set]
    starts with the write that keeps the key's expiry, not with the
    expiring write of [setex]. *)
Theorem default_ttl_zero_is_no_default_ttl
    (prefix : option string) (encryption : option EncryptionMeta) :
  let meta ttl := Some {| m_keyPrefix := prefix; m_enableEncryption := encryption;
                          m_defaultTTL := ttl |} in
  new_Collection (meta (Some 0)) = new_Collection (meta None) /\
  match new_Collection (meta (Some 0)) with
  | Ok c =>
      defaultTTL c = None /\
      (forall indexOn, exists c' i, addIndex c indexOn = Ok (c', i)) /\
      (forall data exp st, exists evs,
         trace (set c data exp st).2
         = trace st ++ ESet (record_key c (field data "id")) (encrypt c (VObj data)) KeepTtl :: evs)
  | Err e => e = MissingSecretOrIV
  end.
Proof.
  intros meta. split; [reflexivity|].
  unfold new_Collection, meta. simpl.
  assert (Hgen : forall c, defaultTTL c = None ->
            defaultTTL c = None /\
            (forall indexOn, exists c' i, addIndex c indexOn = Ok (c', i)) /\
            (forall data exp st, exists evs,
               trace (set c data exp st).2
               = trace st ++ ESet (record_key c (field data "id")) (encrypt c (VObj data)) KeepTtl :: evs)).
  { intros c Hc. assert (Httl : has_defaultTTL c = None) by (unfold has_defaultTTL; rewrite Hc; reflexivity).
    split; [exact Hc|]. split.
    - intros indexOn. unfold addIndex. rewrite Httl. eauto.
    - intros data exp st. destruct (set c data exp st) as [r st'] eqn:Hset.
      destruct (set_without_ttl_runs _ _ _ _ _ _ Httl Hset) as (evs & Htr & _).
      exists evs. exact Htr. }
  destruct encryption as [e|]; [|apply Hgen; reflexivity].
  unfold new_Tokenizer.
  destruct (String.eqb _ "" || String.eqb _ ""); [reflexivity|].
  apply Hgen; reflexivity.
Qed.

(** *** Batch reads *)

Lemma decode_all_spec (c : Collection) (datas : list value) :
  match decode_all c datas with
  | Ok rs => Forall2 (decoded_as c) datas rs
  | Err e => exists i data,
      datas !! i = Some data /\ truthy data = true /\ decrypt c data = Err e
  end.
Proof.
  induction datas as [|data rest IH]; simpl; [constructor|].
  destruct (truthy data) eqn:Ht; simpl.
  - destruct (decrypt c data) as [v|e] eqn:Hd.
    + destruct (decode_all c rest) as [vs|e].
      * constructor; [unfold decoded_as; rewrite Ht; exact Hd | exact IH].
      * destruct IH as (i & x & Hi & Hx). exists (S i), x. auto.
    + exists 0%nat, data. auto.
  - destruct (decode_all c rest) as [vs|e].
    + constructor; [unfold decoded_as; rewrite Ht; reflexivity | exact IH].
    + destruct IH as (i & x & Hi & Hx). exists (S i), x. auto.
Qed.

(** C6, as amended. [getMany] of no id answers the empty list and leaves
    the store and the trace alone. Of a non-empty list it makes one [MGET];
    if every token found decodes, the result has one position per id, [null]
    where nothing is stored or what is stored is falsy, and the decoded
    record elsewhere; if one token fails to decode, the whole call fails
    with that error and returns no record at all. *)
Theorem getMany_is_aligned_or_fails (c : Collection) (ids : list value) (st : state) :
  let keys := map (record_key c) ids in
  let datas := do_mget keys (db st) in
  getMany c [] st = (Ok [], st) /\
  (ids <> [] ->
   (getMany c ids st).2 = emit (EMget keys) st /\
   length datas = length ids /\
   match (getMany c ids st).1 with
   | Ok rs => Forall2 (decoded_as c) datas rs
   | Err e => exists i data,
       datas !! i = Some data /\ truthy data = true /\ decrypt c data = Err e
   end /\
   (forall i data e,
      datas !! i = Some data -> truthy data = true -> decrypt c data = Err e ->
      exists e', (getMany c ids st).1 = Err e')).
Proof.
  intros keys datas. split; [reflexivity|]. intros Hne.
  assert (Hrun : getMany c ids st = (decode_all c datas, emit (EMget keys) st)).
  { destruct ids; [contradiction|]. reflexivity. }
  rewrite Hrun. simpl.
  pose proof (decode_all_spec c datas) as Hspec.
  split; [reflexivity|]. split.
  { unfold datas, do_mget, keys. rewrite !length_map. reflexivity. }
  split; [exact Hspec|].
  intros i data e Hi Ht Hd.
  destruct (decode_all c datas) as [rs|e']; [|eauto].
  exfalso. destruct (Forall2_lookup_l _ _ _ _ _ Hspec Hi) as (r & _ & Hr).
  unfold decoded_as in Hr. rewrite Ht, Hd in Hr. discriminate.
Qed.

(** *** The retry loop of [update] *)

Lemma backoffs_app (xs ys : list event) :
  backoffs (xs ++ ys) = backoffs xs ++ backoffs ys.
Proof. apply List.filter_app. Qed.

(** [decrypt] throws nothing but what [fromToken] throws. *)
Lemma decrypt_error (c : Collection) (data : value) (e : error) :
  decrypt c data = Err e -> e = DecodeError.
Proof.
  unfold decrypt, fromToken. destruct (tokenizer c) as [t|]; [|discriminate].
  destruct data; try (intros [= <-]; reflexivity).
  destruct (aes_decrypt _ _ _) as [text|]; [|intros [= <-]; reflexivity].
  destruct (json_parse text); [discriminate|intros [= <-]; reflexivity].
Qed.

(** [get] makes one round trip, and throws what the store or [decrypt]
    throws. *)
Lemma get_runs (c : Collection) (id : value) (st st1 : state) (r : result value) :
  get c id st = (r, st1) ->
  st1 = emit (EGet (record_key c id)) st /\
  forall e, r = Err e -> e = StoreError \/ e = DecodeError.
Proof.
  unfold get, bind, redis_get. intros Hget.
  destruct (do_get (record_key c id) (db st)) as [data|e0] eqn:Hd.
  - destruct (negb (truthy data)).
    + injection Hget as <- <-. split; [reflexivity|discriminate].
    + unfold lift in Hget. injection Hget as <- <-. split; [reflexivity|].
      intros e He. right. exact (decrypt_error _ _ _ He).
  - injection Hget as <- <-. split; [reflexivity|]. intros e [= <-].
    left. unfold do_get in Hd.
    destruct (db st !! record_key c id) as [[[v|ms] ttl]|]; congruence.
Qed.

(** [set] never pauses. *)
Lemma set_makes_no_pause (c : Collection) (data : list (string * value)) (exp : option value)
    (st st' : state) (r : result value) :
  set c data exp st = (r, st') ->
  exists evs, trace st' = trace st ++ evs /\ backoffs evs = [].
Proof.
  intros Hset. destruct (has_defaultTTL c) as [ttl|] eqn:Httl.
  - unfold set in Hset. rewrite Httl in Hset. unfold setex in Hset.
    destruct (indexes c).
    + unfold bind, redis_set in Hset.
      destruct (do_set _ _ _ _) as [[prev|e] d]; injection Hset as <- <-;
        eexists; (split; [reflexivity|reflexivity]).
    + injection Hset as <- <-. exists []. rewrite app_nil_r. auto.
  - destruct (set_without_ttl_runs _ _ _ _ _ _ Httl Hset) as (evs & Htr & Hrefused & Hwritten).
    eexists. split; [exact Htr|].
    destruct (holds_set (db st) _).
    + destruct (Hrefused eq_refl) as (_ & _ & ->). reflexivity.
    + destruct (Hwritten eq_refl) as (cs & _ & [-> | ->]); reflexivity.
Qed.

(** One more unit of fuel than [update] gives changes nothing: the
    recursion of [update] always ends by itself. *)
Lemma update_loop_enough_fuel (c : Collection) (id : value) (dataOrCb : patch)
    (others : nat -> gmap string entry -> gmap string entry)
    (fuel more n : nat) (st : state) :
  (3 - n < fuel)%nat ->
  update_loop (fuel + more) c id dataOrCb others n st
  = update_loop fuel c id dataOrCb others n st.
Proof.
  revert n st. induction fuel as [|fuel IH]; intros n st Hfuel; [lia|].
  simpl. unfold bind, try_catch, others_run, console_warn, sleep, throw.
  destruct (get c id st) as [[item|e] st1]; [|reflexivity].
  destruct (negb (truthy item)); [reflexivity|].
  destruct (set c _ _ _) as [[d|e] st2]; [reflexivity|].
  destruct (Nat.ltb_spec n 3) as [Hn|Hn]; [|reflexivity].
  apply IH. lia.
Qed.

(** One attempt of [update], as the source reads. *)
Lemma update_attempt (c : Collection) (id : value) (dataOrCb : patch)
    (others : nat -> gmap string entry -> gmap string entry) (n : nat) (st : state) :
  update c id dataOrCb others n st
  = match get c id st with
    | (Err e, st1) => (Err e, st1)
    | (Ok item, st1) =>
        if negb (truthy item) then (Err ItemNotFound, st1)
        else
          match set c (merge item dataOrCb) (Some item) (with_db (others n (db st1)) st1) with
          | (Ok d, st2) => (Ok d, st2)
          | (Err _, st2) =>
              if (n <? 3)%nat
              then update c id dataOrCb others (n + 1) (emit (ESleep 100) (emit EWarn st2))
              else (Err NoMoreRetries, st2)
          end
    end.
Proof.
  unfold update at 1. simpl.
  unfold bind, try_catch, others_run, console_warn, sleep, throw.
  destruct (get c id st) as [[item|e] st1]; [|reflexivity].
  destruct (negb (truthy item)); [reflexivity|].
  destruct (set c _ _ _) as [[d|e] st2]; [reflexivity|].
  destruct (Nat.ltb_spec n 3) as [Hn|Hn]; [|reflexivity].
  unfold update. replace (3 - n)%nat with (S (3 - (n + 1)))%nat by lia.
  reflexivity.
Qed.

(** How a call of [update] goes on after its first attempt: it ends
    there without a pause, or it pauses once and starts again. *)
Lemma update_cases (c : Collection) (id : value) (dataOrCb : patch)
    (others : nat -> gmap string entry -> gmap string entry)
    (n : nat) (st st' : state) (r : result value) :
  update c id dataOrCb others n st = (r, st') ->
  (exists evs,
     trace st' = trace st ++ evs /\ backoffs evs = [] /\
     r <> Err ConcurrentUpdate /\
     (r = Err NoMoreRetries -> (3 <= n)%nat)) \/
  ((n < 3)%nat /\
   exists evs st2,
     trace st2 = trace st ++ evs /\ backoffs evs = [ESleep 100] /\
     update c id dataOrCb others (n + 1) st2 = (r, st')).
Proof.
  rewrite update_attempt.
  destruct (get c id st) as [rg st1] eqn:Hget.
  destruct (get_runs _ _ _ _ _ Hget) as [-> Herr].
  destruct rg as [item|e].
  2: { intros [= <- <-]. left. exists [EGet (record_key c id)].
       split; [reflexivity|]. split; [reflexivity|].
       split; intros [= ->]; destruct (Herr _ eq_refl); discriminate. }
  destruct (negb (truthy item)).
  { intros [= <- <-]. left. exists [EGet (record_key c id)].
    split; [reflexivity|]. split; [reflexivity|]. split; discriminate. }
  destruct (set c _ _ _) as [[d|e] st2] eqn:Hset;
    destruct (set_makes_no_pause _ _ _ _ _ _ Hset) as (evs & Htr & Hq); simpl in Htr.
  { intros [= <- <-]. left. exists (EGet (record_key c id) :: evs).
    rewrite Htr, <- app_assoc. simpl. rewrite Hq.
    split; [reflexivity|]. split; [reflexivity|]. split; discriminate. }
  destruct (Nat.ltb_spec n 3) as [Hn|Hn].
  - intros Hrec. right. split; [exact Hn|].
    exists (EGet (record_key c id) :: evs ++ [EWarn; ESleep 100]), (emit (ESleep 100) (emit EWarn st2)).
    split; [|split; [|exact Hrec]].
    + simpl. rewrite Htr, <- !app_assoc. reflexivity.
    + change (backoffs ([EGet (record_key c id)] ++ evs ++ [EWarn; ESleep 100]) = [ESleep 100]).
      rewrite !backoffs_app, Hq. reflexivity.
  - intros [= <- <-]. left. exists (EGet (record_key c id) :: evs).
    rewrite Htr, <- app_assoc. simpl. rewrite Hq.
    split; [reflexivity|]. split; [reflexivity|]. split; [discriminate|]. intros _. exact Hn.
Qed.

(** The pauses of a whole call of [update]. *)
Lemma update_pauses (c : Collection) (id : value) (dataOrCb : patch)
    (others : nat -> gmap string entry -> gmap string entry)
    (budget n : nat) (st st' : state) (r : result value) :
  (budget = 3 - n)%nat ->
  update c id dataOrCb others n st = (r, st') ->
  exists evs k,
    trace st' = trace st ++ evs /\
    backoffs evs = repeat (ESleep 100) k /\
    (k <= budget)%nat /\
    (r = Err NoMoreRetries -> k = budget) /\
    r <> Err ConcurrentUpdate.
Proof.
  revert n st. induction budget as [|budget IH]; intros n st Hb Hup;
    destruct (update_cases _ _ _ _ _ _ _ _ Hup)
      as [(evs & Htr & Hq & Hcu & Hlast)|(Hn & evs & st2 & Htr & Hq & Hrec)].
  - exists evs, 0%nat. repeat split; auto.
  - lia.
  - exists evs, 0%nat. repeat split; auto; try lia.
    intros Hr. specialize (Hlast Hr). lia.
  - apply IH in Hrec; [|lia].
    destruct Hrec as (evs' & k & Htr' & Hb' & Hle & Hlast & Hcu).
    exists (evs ++ evs'), (S k). rewrite Htr', Htr, <- app_assoc.
    split; [reflexivity|]. rewrite backoffs_app, Hq, Hb'.
    split; [reflexivity|]. split; [lia|]. split; [|exact Hcu].
    intros Hr. rewrite (Hlast Hr). reflexivity.
Qed.

(** C5, as amended. Errors of the initial read of [update] reach the
    caller as they are, and so does the not-found error, raised when the
    read finds nothing: neither is retried. Whatever error the inner [set]
    raises, be it the concurrent-update error, a decode error or an error
    of the store, the attempt is abandoned and, while fewer than 3 retries
    were made, the whole read-merge-write cycle runs again after a pause of
    100 ms; after the third retry the terminal error is raised instead. A
    call therefore pauses at most 3 times, exactly 3 times when it ends with
    the terminal error, and never ends with the concurrent-update error. *)
Theorem update_retries_whatever_set_raises
    (c : Collection) (id : value) (dataOrCb : patch)
    (others : nat -> gmap string entry -> gmap string entry) (st : state) :
  (forall n e st1,
     get c id st = (Err e, st1) ->
     update c id dataOrCb others n st = (Err e, st1)) /\
  (forall n item st1,
     get c id st = (Ok item, st1) ->
     truthy item = false ->
     update c id dataOrCb others n st = (Err ItemNotFound, st1)) /\
  (forall n item st1 e st2,
     get c id st = (Ok item, st1) ->
     truthy item = true ->
     set c (merge item dataOrCb) (Some item) (with_db (others n (db st1)) st1)
     = (Err e, st2) ->
     update c id dataOrCb others n st
     = if (n <? 3)%nat
       then update c id dataOrCb others (n + 1) (emit (ESleep 100) (emit EWarn st2))
       else (Err NoMoreRetries, st2)) /\
  (forall r st',
     update c id dataOrCb others 0 st = (r, st') ->
     exists evs k,
       trace st' = trace st ++ evs /\
       backoffs evs = repeat (ESleep 100) k /\
       (k <= 3)%nat /\
       (r = Err NoMoreRetries -> k = 3%nat) /\
       r <> Err ConcurrentUpdate).
Proof.
  split; [|split; [|split]].
  - intros n e st1 Hget. rewrite update_attempt, Hget. reflexivity.
  - intros n item st1 Hget Hitem. rewrite update_attempt, Hget, Hitem. reflexivity.
  - intros n item st1 e st2 Hget Hitem Hset.
    rewrite update_attempt, Hget, Hitem, Hset. reflexivity.
  - intros r st' Hup. exact (update_pauses _ _ _ _ 3 0 _ _ _ eq_refl Hup).
Qed.

(** *** No call removes a record *)

Lemma keeps_ret {A : Type} (a : A) : keeps_values (ret a).
Proof. intros k st Hk. exact Hk. Qed.

Lemma keeps_throw {A : Type} (e : error) : keeps_values (@throw A e).
Proof. intros k st Hk. exact Hk. Qed.

Lemma keeps_lift {A : Type} (r : result A) : keeps_values (lift r).
Proof. intros k st Hk. exact Hk. Qed.

Lemma keeps_bind {A B : Type} (m : M A) (f : A -> M B) :
  keeps_values m -> (forall a, keeps_values (f a)) -> keeps_values (bind m f).
Proof.
  intros Hm Hf k st Hk. unfold bind. specialize (Hm k st Hk).
  destruct (m st) as [[a|e] st1]; [apply Hf|]; exact Hm.
Qed.

Lemma keeps_try_catch {A : Type} (m : M A) (h : error -> M A) :
  keeps_values m -> (forall e, keeps_values (h e)) -> keeps_values (try_catch m h).
Proof.
  intros Hm Hh k st Hk. unfold try_catch. specialize (Hm k st Hk).
  destruct (m st) as [[a|e] st1]; [|apply Hh]; exact Hm.
Qed.

Lemma keeps_redis_get (k0 : string) : keeps_values (redis_get k0).
Proof. intros k st Hk. exact Hk. Qed.

Lemma keeps_redis_mget (ks : list string) : keeps_values (redis_mget ks).
Proof. intros k st Hk. exact Hk. Qed.

Lemma keeps_redis_smembers (k0 : string) : keeps_values (redis_smembers k0).
Proof. intros k st Hk. exact Hk. Qed.

Lemma keeps_console_warn : keeps_values console_warn.
Proof. intros k st Hk. exact Hk. Qed.

Lemma keeps_sleep (ms : Z) : keeps_values (sleep ms).
Proof. intros k st Hk. exact Hk. Qed.

Lemma keeps_alone (n : nat) : keeps_values (others_run (alone n)).
Proof. intros k st Hk. exact Hk. Qed.

Lemma keeps_redis_set (k0 : string) (v : value) (o : set_option) :
  keeps_values (redis_set k0 v o).
Proof.
  intros k st Hk. unfold redis_set.
  destruct (do_set k0 v o (db st)) as [r d] eqn:Hset. simpl.
  assert (Hd : d = db st \/ exists ttl, d = <[k0 := Entry (PValue v) ttl]> (db st)).
  { unfold do_set in Hset. destruct o.
    - destruct (db st !! k0) as [[[old|ms] ttl]|]; injection Hset as <- <-; eauto.
    - destruct (seconds <=? 0); [injection Hset as <- <-; eauto|].
      destruct (db st !! k0) as [[[old|ms] ttl]|]; injection Hset as <- <-; eauto. }
  destruct Hd as [->|[ttl ->]]; [exact Hk|].
  unfold value_at. destruct (decide (k0 = k)) as [->|Hne].
  - rewrite lookup_insert_eq. eauto.
  - rewrite lookup_insert_ne by exact Hne. exact Hk.
Qed.

Lemma keeps_redis_persist (k0 : string) : keeps_values (redis_persist k0).
Proof.
  intros k st Hk. unfold redis_persist, do_persist. simpl.
  destruct (db st !! k0) as [[p ttl]|] eqn:Hk0; [|exact Hk].
  unfold value_at in *. destruct (decide (k0 = k)) as [->|Hne].
  - rewrite lookup_insert_eq. rewrite Hk0 in Hk. exact Hk.
  - rewrite lookup_insert_ne by exact Hne. exact Hk.
Qed.

Lemma keeps_pipeline_exec (cs : list pipeline_command) : keeps_values (pipeline_exec cs).
Proof.
  intros k st Hk. unfold pipeline_exec.
  destruct (do_exec cs (db st)) as [ok d] eqn:Hex. simpl.
  unfold value_at in *.
  destruct (db st !! k) as [[[v|ms] ttl]|] eqn:Hv; try (destruct Hk; discriminate).
  replace d with (do_exec cs (db st)).2 by (rewrite Hex; reflexivity).
  rewrite (do_exec_value_frame cs _ k v ttl Hv). eauto.
Qed.

Create HintDb keeps.
#[local] Hint Resolve keeps_ret keeps_throw keeps_lift keeps_redis_get keeps_redis_mget
  keeps_redis_smembers keeps_console_warn keeps_sleep keeps_alone keeps_redis_set
  keeps_redis_persist keeps_pipeline_exec : keeps.

Ltac keeps_step :=
  first
    [ solve [auto with keeps]
    | apply keeps_bind; [|intros ?]
    | apply keeps_try_catch; [|intros ?]
    | match goal with
      | |- keeps_values (if ?b then _ else _) => destruct b
      | |- keeps_values (match ?x with _ => _ end) => destruct x
      end ].

Lemma keeps_get (c : Collection) (id : value) : keeps_values (get c id).
Proof. unfold get. repeat keeps_step. Qed.

Lemma keeps_getMany (c : Collection) (ids : list value) : keeps_values (getMany c ids).
Proof. unfold getMany. repeat keeps_step. Qed.

Lemma keeps_setex (c : Collection) (data : list (string * value)) (ttl : Z) : keeps_values (setex c data ttl).
Proof. unfold setex. repeat keeps_step. Qed.

Lemma keeps_set (c : Collection) (data : list (string * value)) (exp : option value) :
  keeps_values (set c data exp).
Proof.
  unfold set. destruct (has_defaultTTL c); [apply keeps_setex|].
  repeat keeps_step.
Qed.

Lemma keeps_update_loop (fuel : nat) (c : Collection) (id : value) (dataOrCb : patch)
    (n : nat) :
  keeps_values (update_loop fuel c id dataOrCb alone n).
Proof.
  revert n. induction fuel as [|fuel IH]; intros n; simpl; [apply keeps_throw|].
  apply keeps_bind; [apply keeps_get|]. intros item.
  destruct (negb (truthy item)); [apply keeps_throw|].
  apply keeps_bind; [apply keeps_alone|]. intros _.
  apply keeps_try_catch; [apply keeps_set|]. intros _.
  destruct (n <? 3)%nat; [|apply keeps_throw].
  repeat keeps_step.
Qed.

Lemma keeps_getItems (i : CollectionIndex) (v : value) : keeps_values (getItems i v).
Proof.
  unfold getItems. apply keeps_bind; [apply keeps_redis_smembers|]. intros members.
  destruct members; [apply keeps_ret|].
  apply keeps_bind; [apply keeps_getMany|]. intros items. apply keeps_ret.
Qed.

(** C7. The class has no member called [delete], and none of its methods
    does what the claim expects of one: whatever call is made on a
    collection or on one of its indexes, a key that held a value before the
    call holds a value after it. *)
Theorem no_call_removes_a_stored_record :
  ~ In "delete" Collection_members /\
  forall (c : Collection) (op : call) (st : state) (k : string) (v : value),
    value_at (db st) k = Some v ->
    exists v', value_at (db (after c op st)) k = Some v'.
Proof.
  split.
  - unfold Collection_members. rewrite <- list_elem_of_In.
    intros Hin. repeat (apply elem_of_cons in Hin as [Hin|Hin]; [discriminate|]).
    inversion Hin.
  - intros c op st k v Hk.
    assert (Hsome : is_Some (value_at (db st) k)) by eauto.
    destruct op; simpl.
    + apply (keeps_get c id k st Hsome).
    + apply (keeps_getMany c ids k st Hsome).
    + apply (keeps_set c data _expectedOld k st Hsome).
    + apply (keeps_setex c data ttl k st Hsome).
    + apply (keeps_update_loop _ c id dataOrCb 0 k st Hsome).
    + apply (keeps_redis_persist _ k st Hsome).
    + apply (keeps_getItems _ v0 k st Hsome).
Qed.

(** *** What [update] hands to [set] *)

Lemma lookup_set_prop_eq (k : string) (v : value) (ps : list (string * value)) :
  lookup_prop k (set_prop k v ps) = Some v.
Proof.
  induction ps as [|[k' v'] ps IH]; simpl.
  - rewrite String.eqb_refl. reflexivity.
  - destruct (String.eqb_spec k k') as [->|Hne]; simpl.
    + rewrite String.eqb_refl. reflexivity.
    + destruct (String.eqb_spec k k'); [contradiction|exact IH].
Qed.

Lemma lookup_set_prop_ne (k k' : string) (v : value) (ps : list (string * value)) :
  k <> k' -> lookup_prop k (set_prop k' v ps) = lookup_prop k ps.
Proof.
  intros Hne. induction ps as [|[k2 v2] ps IH]; simpl.
  - destruct (String.eqb_spec k k'); [contradiction|reflexivity].
  - destruct (String.eqb_spec k' k2) as [->|Hne2]; simpl.
    + destruct (String.eqb_spec k k2); [contradiction|reflexivity].
    + destruct (String.eqb_spec k k2); [reflexivity|exact IH].
Qed.

Lemma lookup_assign_absent (k : string) (ps acc : list (string * value)) :
  lookup_prop k ps = None -> lookup_prop k (assign ps acc) = lookup_prop k acc.
Proof.
  revert acc. induction ps as [|[k' v'] ps IH]; intros acc Hk; [reflexivity|].
  simpl in Hk. destruct (String.eqb_spec k k') as [->|Hne]; [discriminate|].
  unfold assign in *. simpl. rewrite (IH _ Hk). apply lookup_set_prop_ne. exact Hne.
Qed.

Lemma lookup_assign_present (k : string) (v : value) (ps acc : list (string * value)) :
  NoDup (map fst ps) -> lookup_prop k ps = Some v ->
  lookup_prop k (assign ps acc) = Some v.
Proof.
  revert acc. induction ps as [|[k' v'] ps IH]; intros acc Hnd Hk; [discriminate|].
  simpl in Hk. inversion Hnd as [|? ? Hnotin Hnd']; subst.
  unfold assign in *. simpl.
  destruct (String.eqb_spec k k') as [->|Hne].
  - injection Hk as ->.
    assert (Habsent : lookup_prop k' ps = None).
    { clear -Hnotin. induction ps as [|[k2 v2] ps IHps]; [reflexivity|]. simpl in *.
      destruct (String.eqb_spec k' k2) as [->|Hne]; [exfalso; apply Hnotin; left|].
      apply IHps. intros Hin. apply Hnotin. right. exact Hin. }
    rewrite (lookup_assign_absent _ _ _ Habsent). apply lookup_set_prop_eq.
  - apply IH; assumption.
Qed.

(** A property of [{ ...a, ...b }] is the one of [b] when [b] has it, and
    the one of [a] otherwise. *)
Lemma lookup_spread2 (k : string) (a b : value) :
  NoDup (map fst (own_props a)) -> NoDup (map fst (own_props b)) ->
  lookup_prop k (spread2 a b)
  = match lookup_prop k (own_props b) with
    | Some v => Some v
    | None => lookup_prop k (own_props a)
    end.
Proof.
  intros Ha Hb. unfold spread2, assign. rewrite fold_left_app.
  fold (assign (own_props a) []). fold (assign (own_props b) (assign (own_props a) [])).
  destruct (lookup_prop k (own_props b)) as [v|] eqn:Hkb.
  - apply lookup_assign_present; assumption.
  - rewrite (lookup_assign_absent _ _ _ Hkb).
    destruct (lookup_prop k (own_props a)) as [v|] eqn:Hka.
    + apply lookup_assign_present; assumption.
    + rewrite (lookup_assign_absent _ _ _ Hka). reflexivity.
Qed.

(** The primary key of the record [update] hands to [set], for a patch
    given as an object: the patch's own [id] when it has one, the item's
    otherwise. *)
Lemma merged_id (item : list (string * value)) (patch : list (string * value)) :
  NoDup (map fst item) -> NoDup (map fst patch) ->
  field (merge (VObj item) (PatchData (VObj patch))) "id"
  = match lookup_prop "id" patch with
    | Some id' => id'
    | None => field item "id"
    end.
Proof.
  intros Hi Hp. unfold field, merge.
  rewrite (lookup_spread2 "id" (VObj item) (VObj patch) Hi Hp). simpl.
  destruct (lookup_prop "id" patch); reflexivity.
Qed.

(** [isEqual] holds between a well-formed value and itself. *)
Lemma lookup_prop_In (k : string) (v : value) (ps : list (string * value)) :
  NoDup (map fst ps) -> In (k, v) ps -> lookup_prop k ps = Some v.
Proof.
  induction ps as [|[k' v'] ps IH]; intros Hnd Hin; [destruct Hin|].
  inversion Hnd as [|? ? Hnotin Hnd']; subst. simpl.
  destruct Hin as [[= -> ->]|Hin].
  - rewrite String.eqb_refl. reflexivity.
  - destruct (String.eqb_spec k k') as [->|Hne]; [|apply IH; assumption].
    exfalso. apply Hnotin. apply list_elem_of_In.
    change k' with (fst (k', v)). apply in_map. exact Hin.
Qed.

Lemma isEqual_refl (v : value) : well_formed v = true -> isEqual v v = true.
Proof.
  induction v as [| |b|n|str|items IH|props IH] using value_ind_nested;
    intros Hwf; cbn [isEqual well_formed] in *.
  - reflexivity.
  - reflexivity.
  - destruct b; reflexivity.
  - apply Z.eqb_refl.
  - apply String.eqb_refl.
  - induction IH as [|x l Hx Hl IHl]; [reflexivity|].
    cbn [forallb] in Hwf. apply andb_prop in Hwf as [Hwx Hwl].
    rewrite (Hx Hwx). cbn [andb]. exact (IHl Hwl).
  - apply andb_prop in Hwf as [Hnd Hwf]. apply bool_decide_eq_true in Hnd.
    rewrite Nat.eqb_refl. cbn [andb].
    match goal with
    | |- ?loop props = true =>
        assert (Hloop : forall l,
                  (forall kv, In kv l -> In kv props) ->
                  Forall (fun kv => well_formed (snd kv) = true ->
                                    isEqual (snd kv) (snd kv) = true) l ->
                  forallb (fun kv => well_formed (snd kv)) l = true ->
                  loop l = true)
    end.
    { induction l as [|[k x] l IHl]; intros Hsub Hall Hwl; [reflexivity|].
      inversion Hall as [|? ? Hx Hl]; subst.
      cbn [forallb snd] in Hwl. apply andb_prop in Hwl as [Hwx Hwl].
      rewrite (lookup_prop_In k x props Hnd (Hsub _ (or_introl eq_refl))).
      simpl in Hx. rewrite (Hx Hwx). cbn [andb].
      apply IHl; [|exact Hl|exact Hwl].
      intros kv Hin. apply Hsub. right. exact Hin. }
    apply Hloop; auto.
Qed.

(** [update], when no other client writes: on a collection without
    encryption, index or default time-to-live whose key holds a well-formed
    record, and for a patch that leaves the record under the same key, the
    call returns the merged record at the first attempt and leaves it in the
    store. *)
Lemma update_alone_succeeds
    (c : Collection) (id : value) (item : list (string * value)) (dataOrCb : patch)
    (st : state) :
  let k := record_key c id in
  let merged := merge (VObj item) dataOrCb in
  tokenizer c = None -> has_defaultTTL c = None -> indexes c = [] ->
  value_at (db st) k = Some (VObj item) ->
  well_formed (VObj item) = true ->
  record_key c (field merged "id") = k ->
  exists st',
    update c id dataOrCb alone 0 st = (Ok (VObj merged), st') /\
    value_at (db st') k = Some (VObj merged) /\
    backoffs (trace st') = backoffs (trace st).
Proof.
  intros k merged Htok Httl Hidx Hk Hwf Hsame.
  assert (Hget : get c id st = (Ok (VObj item), emit (EGet k) st)).
  { unfold get, bind, redis_get, do_get. fold k. unfold value_at in Hk.
    destruct (db st !! k) as [[[v|ms] ttl]|]; try discriminate.
    injection Hk as ->. simpl. unfold lift, decrypt. rewrite Htok. reflexivity. }
  assert (Hnoset : holds_set (db st) k = false).
  { unfold holds_set. unfold value_at in Hk.
    destruct (db st !! k) as [[[v|ms] ttl]|]; try discriminate; reflexivity. }
  set (st1 := emit (EGet k) st) in *.
  assert (Hset : set c merged (Some (VObj item)) st1
                 = (Ok (VObj merged),
                    emit (ESet k (VObj merged) KeepTtl)
                      (with_db (<[k := Entry (PValue (VObj merged)) (ttl_of (db st) k)]> (db st))
                         st1))).
  { unfold set. rewrite Httl. unfold bind at 1, redis_set. rewrite Hsame.
    change (db st1) with (db st). rewrite (do_set_KeepTtl _ _ _ Hnoset).
    unfold previous_value. rewrite Hk.
    change (default VNull (Some (VObj item))) with (VObj item).
    unfold encrypt, bind, lift, decrypt. rewrite Htok.
    rewrite (isEqual_refl _ Hwf). cbn [truthy andb negb]. rewrite Hidx. reflexivity. }
  rewrite update_attempt, Hget. cbn [truthy negb]. fold merged.
  change (with_db (alone 0 (db st1)) st1) with st1. rewrite Hset.
  eexists. split; [reflexivity|]. split.
  - cbn [db emit with_db]. apply value_at_insert_eq.
  - cbn [trace emit with_db st1]. unfold st1. cbn [trace emit].
    rewrite !backoffs_app. cbn. rewrite !app_nil_r. reflexivity.
Qed.

(** *** The index entries after a record changed *)

Lemma strict_eq_true (a b : value) : strict_eq a b = true -> a = b.
Proof.
  destruct a, b; simpl; try discriminate; try reflexivity.
  - destruct b, b0; simpl; try discriminate; reflexivity.
  - intros Hn. apply Z.eqb_eq in Hn. subst. reflexivity.
  - intros Hs. apply String.eqb_eq in Hs. subst. reflexivity.
Qed.

Lemma is_member_In (m : string) (ms : list string) :
  is_member m ms = true <-> In m ms.
Proof.
  unfold is_member. rewrite existsb_exists. split.
  - intros (x & Hx & Heq). apply String.eqb_eq in Heq. subst. exact Hx.
  - intros Hin. exists m. split; [exact Hin|apply String.eqb_refl].
Qed.

Lemma not_In_without (m : string) (ms : list string) : ~ In m (without m ms).
Proof.
  unfold without. rewrite filter_In. intros [_ Hm].
  rewrite String.eqb_refl in Hm. discriminate.
Qed.

(** The pipeline of a changed field, when the store accepts it and the two
    index keys differ: the member is in the new entry and not in the old. *)
Lemma do_exec_moves_the_member (d : gmap string entry) (knew kold m : string) :
  knew <> kold ->
  (do_exec [Sadd knew m; Srem kold m] d).1 = true ->
  In m (members_at (do_exec [Sadd knew m; Srem kold m] d).2 knew) /\
  ~ In m (members_at (do_exec [Sadd knew m; Srem kold m] d).2 kold).
Proof.
  intros Hne. cbn [do_exec].
  destruct (do_command (Sadd knew m) d) as [ok1 d1] eqn:Hadd.
  assert (Hnew : ok1 = true -> In m (members_at d1 knew)).
  { intros ->. unfold do_command in Hadd. unfold members_at.
    destruct (d !! knew) as [[[v|ms] ttl]|] eqn:Hk; try discriminate.
    - destruct (is_member m ms) eqn:Hm; injection Hadd as <-.
      + rewrite Hk. apply is_member_In. exact Hm.
      + rewrite lookup_insert_eq. apply in_or_app. right. left. reflexivity.
    - injection Hadd as <-. rewrite lookup_insert_eq. left. reflexivity. }
  destruct (do_command (Srem kold m) d1) as [ok2 d2] eqn:Hrem. cbn [fst snd].
  intros Hok. apply andb_prop in Hok as [-> Hok]. apply andb_prop in Hok as [-> _].
  specialize (Hnew eq_refl). unfold do_command in Hrem. unfold members_at in *.
  destruct (d1 !! kold) as [[[v|ms] ttl]|] eqn:Hk; try discriminate.
  - destruct (without m ms) as [|x rest] eqn:Hw; injection Hrem as <-.
    + rewrite lookup_delete_ne by (intros Heq; apply Hne; symmetry; exact Heq).
      rewrite lookup_delete_eq. split; [exact Hnew|intros []].
    + rewrite lookup_insert_ne by (intros Heq; apply Hne; symmetry; exact Heq).
      rewrite lookup_insert_eq. split; [exact Hnew|].
      rewrite <- Hw. apply not_In_without.
  - injection Hrem as <-. rewrite Hk. split; [exact Hnew|intros []].
Qed.

(** The index protocol, where it holds. The collection has one index, no
    encryption and no default time-to-live, and the key of the record
    holds the record [was]. If [set] of a record [now] with the same
    primary key returns, and the indexed field of [now] gives another index
    key than the one of [was], then the primary key is in the index entry
    of the new value and in none of the old one. *)
Lemma set_moves_the_index_entry
    (c : Collection) (indexOn : string) (was now : list (string * value))
    (exp : option value) (st st' : state) (r : value) :
  let k := record_key c (field now "id") in
  let knew := index_key c indexOn (field now indexOn) in
  let kold := index_key c indexOn (field was indexOn) in
  let m := to_string (field now "id") in
  tokenizer c = None -> has_defaultTTL c = None -> indexes c = [indexOn] ->
  value_at (db st) k = Some (VObj was) ->
  knew <> kold ->
  set c now exp st = (Ok r, st') ->
  In m (members_at (db st') knew) /\ ~ In m (members_at (db st') kold).
Proof.
  intros k knew kold m Htok Httl Hidx Hk Hne Hset.
  assert (Hnoset : holds_set (db st) k = false).
  { unfold holds_set. unfold value_at in Hk.
    destruct (db st !! k) as [[[v|ms] ttl]|]; try discriminate; reflexivity. }
  assert (Hprev : previous_value (db st) k = VObj was).
  { unfold previous_value. rewrite Hk. reflexivity. }
  assert (Hchanged : strict_eq (field was indexOn) (field now indexOn) = false).
  { destruct (strict_eq _ _) eqn:Heq; [|reflexivity].
    apply strict_eq_true in Heq. exfalso. apply Hne. unfold knew, kold.
    rewrite Heq. reflexivity. }
  unfold set in Hset. rewrite Httl in Hset.
  unfold bind at 1, redis_set in Hset. fold k in Hset.
  rewrite (do_set_KeepTtl _ _ _ Hnoset), Hprev in Hset.
  unfold bind at 1, lift, decrypt in Hset. rewrite Htok in Hset.
  destruct (match exp with Some expected => _ | None => false end); [discriminate|].
  rewrite Hidx in Hset. cbn [truthy negb] in Hset.
  unfold bind at 1 in Hset. cbn [is_nullish] in Hset.
  unfold sadd_commands, srem_commands in Hset. rewrite Hidx in Hset.
  cbn [map flat_map get_prop] in Hset. rewrite Hchanged in Hset.
  cbn [negb app length Nat.ltb Nat.leb] in Hset. fold knew kold m in Hset.
  unfold bind, pipeline_exec, ret in Hset. cbn [db with_db emit] in Hset.
  set (d1 := <[k := _]> (db st)) in *.
  pose proof (do_exec_moves_the_member d1 knew kold m Hne) as Hmoves.
  destruct (do_exec [Sadd knew m; Srem kold m] d1) as [ok d2].
  destruct ok; [|discriminate]. injection Hset as _ <-. apply Hmoves. reflexivity.
Qed.

(** *** Writes and reads under encryption *)

(** On a collection with encryption and no default time-to-live, [set] on
    a key that holds nothing writes the token and throws. *)
Lemma set_on_a_free_key_with_encryption
    (c : Collection) (t : Tokenizer) (data : list (string * value))
    (exp : option value) (st : state) :
  let k := record_key c (field data "id") in
  let tok := VStr (toToken t (VObj data)) in
  tokenizer c = Some t -> has_defaultTTL c = None -> db st !! k = None ->
  set c data exp st
  = (Err DecodeError,
     emit (ESet k tok KeepTtl) (with_db (<[k := Entry (PValue tok) None]> (db st)) st)).
Proof.
  intros k tok Ht Httl Hk. unfold set. rewrite Httl.
  unfold bind, redis_set, lift, encrypt, decrypt. rewrite Ht. fold k tok.
  unfold do_set. rewrite Hk. reflexivity.
Qed.

(** [get] reads back the record whose token is stored, when the tokenizer,
    if there is one, is well sized, the record is serializable and its token
    is not the empty string. *)
Lemma get_reads_the_stored_record
    (c : Collection) (id : value) (data : list (string * value)) (st : state) :
  well_keyed c = true ->
  truthy (encrypt c (VObj data)) = true ->
  serializable (VObj data) = true ->
  value_at (db st) (record_key c id) = Some (encrypt c (VObj data)) ->
  get c id st = (Ok (VObj data), emit (EGet (record_key c id)) st).
Proof.
  intros Hkey Htok Hser Hk. unfold get, bind, redis_get, do_get.
  unfold value_at in Hk.
  destruct (db st !! record_key c id) as [[[v|ms] ttl]|]; try discriminate.
  injection Hk as ->. rewrite Htok. simpl. unfold lift, decrypt, encrypt.
  unfold well_keyed, well_sized in Hkey.
  destruct (tokenizer c) as [t|]; [|reflexivity].
  apply andb_prop in Hkey as [Hkk Hki]. unfold fromToken, toToken.
  rewrite (aes_decrypt_encrypt _ _ _ Hkk Hki), (json_parse_stringify _ Hser).
  reflexivity.
Qed.

End Claims.


(** * Further properties of the code *)

Section Further.
Context `{Collaborators}.

(** ** What [set] returns, stores and throws *)

(** [set] returns nothing but the record it was given. *)
Lemma set_returns_its_argument (c : Collection) (data : list (string * value))
    (exp : option value) (st st' : state) (r : value) :
  set c data exp st = (Ok r, st') -> r = VObj data.
Proof.
  unfold set, setex, bind, lift, ret, throw, redis_set, pipeline_exec.
  intros Hset.
  repeat match type of Hset with
         | context [match ?x with _ => _ end] => destruct x
         | context [if ?b then _ else _] => destruct b
         end;
    try discriminate; injection Hset as <- _; reflexivity.
Qed.

(** When [set] returns, the key of the record holds its token. *)
Lemma set_stores_the_token (c : Collection) (data : list (string * value))
    (exp : option value) (st st' : state) (r : value) :
  set c data exp st = (Ok r, st') ->
  value_at (db st') (record_key c (field data "id")) = Some (encrypt c (VObj data)).
Proof.
  intros Hset. destruct (has_defaultTTL c) as [ttl|] eqn:Httl.
  - unfold set in Hset. rewrite Httl in Hset. unfold setex in Hset.
    destruct (indexes c); [|discriminate].
    unfold bind, redis_set, ret, do_set in Hset.
    destruct (ttl <=? 0); [discriminate|].
    destruct (db st !! _) as [[[old|ms] t]|]; try discriminate;
      injection Hset as _ <-; apply value_at_insert_eq.
  - destruct (set_without_ttl_runs _ _ _ _ _ _ Httl Hset) as (evs & _ & Hrefused & Hdone).
    destruct (holds_set (db st) (record_key c (field data "id"))) eqn:Hk.
    + destruct (Hrefused eq_refl) as (Hr & _). discriminate.
    + destruct (Hdone eq_refl) as (cs & -> & _). unfold value_at.
      erewrite do_exec_value_frame; [reflexivity|]. apply lookup_insert_eq.
Qed.

(** X1. What was written is what is read. Take a collection without
    encryption, or with a key of a size of AES and an initialization vector
    of 128 bits. Whenever [set] returns, whatever the store held, it
    returns the record it was given; and if that record is serializable and
    its token is not the empty string, a [get] of its primary key on the
    store [set] left returns the same record. *)
Theorem get_after_set (c : Collection) (data : list (string * value))
    (exp : option value) (st st' : state) (r : value) :
  well_keyed c = true ->
  set c data exp st = (Ok r, st') ->
  serializable (VObj data) = true ->
  truthy (encrypt c (VObj data)) = true ->
  r = VObj data /\
  (get c (field data "id") st').1 = Ok (VObj data).
Proof.
  intros Hkey Hset Hser Htok.
  split; [exact (set_returns_its_argument _ _ _ _ _ _ Hset)|].
  rewrite (get_reads_the_stored_record c (field data "id") data st' Hkey Htok Hser);
    [reflexivity|].
  exact (set_stores_the_token _ _ _ _ _ _ Hset).
Qed.

(** Every error [set] can end with. *)
Lemma set_raises (c : Collection) (data : list (string * value))
    (exp : option value) (st st' : state) (e : error) :
  set c data exp st = (Err e, st') ->
  match e with
  | StoreError | DecodeError | TypeError => True
  | ConcurrentUpdate =>
      has_defaultTTL c = None /\
      exists expected old,
        exp = Some expected /\ truthy expected = true /\
        decrypt c (previous_value (db st) (record_key c (field data "id"))) = Ok old /\
        isEqual old expected = false
  | SetexWithIndexes => has_defaultTTL c <> None /\ indexes c <> []
  | _ => False
  end.
Proof.
  intros Hset. unfold set in Hset.
  destruct (has_defaultTTL c) as [ttl|] eqn:Httl.
  - unfold setex in Hset. destruct (indexes c) eqn:Hidx.
    + unfold bind, redis_set, ret, do_set in Hset.
      destruct (ttl <=? 0); [injection Hset as <- _; exact I|].
      destruct (db st !! _) as [[[old|ms] t]|]; try discriminate;
        injection Hset as <- _; exact I.
    + injection Hset as <- _. split; discriminate.
  - unfold bind at 1, redis_set in Hset.
    destruct (holds_set (db st) (record_key c (field data "id"))) eqn:Hk.
    { rewrite (do_set_refused _ _ _ _ Hk) in Hset. injection Hset as <- _. exact I. }
    rewrite (do_set_KeepTtl _ _ _ Hk) in Hset.
    assert (Hexec : forall cs st1,
              (bind (pipeline_exec cs) (fun _ => ret (VObj data))) st1 = (Err e, st') ->
              e = StoreError).
    { intros cs st1. unfold bind, pipeline_exec, ret.
      destruct (do_exec cs (db st1)) as [[|] d2]; [discriminate|].
      intros [= <- _]. reflexivity. }
    unfold lift, bind at 1 in Hset.
    destruct (decrypt c (previous_value _ _)) as [old|e0] eqn:Hold.
    2: { injection Hset as <- _. rewrite (decrypt_error _ _ _ Hold). exact I. }
    unfold bind at 1 in Hset.
    destruct exp as [expected|].
    + destruct (truthy expected) eqn:Hexp; cbn [andb] in Hset.
      * destruct (isEqual old expected) eqn:Heq; cbn [negb] in Hset.
        2: { injection Hset as <- _. split; [reflexivity|]. exists expected, old. auto. }
        destruct (indexes c); [discriminate|].
        destruct (negb (truthy old)); [rewrite (Hexec _ _ Hset); exact I|].
        unfold bind at 1 in Hset.
        destruct (decrypt c old) as [oldData|e1] eqn:Hdec.
        2: { injection Hset as <- _. rewrite (decrypt_error _ _ _ Hdec). exact I. }
        destruct (is_nullish oldData); [injection Hset as <- _; exact I|].
        destruct (0 <? _)%nat; [rewrite (Hexec _ _ Hset); exact I|discriminate].
      * destruct (indexes c); [discriminate|].
        destruct (negb (truthy old)); [rewrite (Hexec _ _ Hset); exact I|].
        unfold bind at 1 in Hset.
        destruct (decrypt c old) as [oldData|e1] eqn:Hdec.
        2: { injection Hset as <- _. rewrite (decrypt_error _ _ _ Hdec). exact I. }
        destruct (is_nullish oldData); [injection Hset as <- _; exact I|].
        destruct (0 <? _)%nat; [rewrite (Hexec _ _ Hset); exact I|discriminate].
    + destruct (indexes c); [discriminate|].
      destruct (negb (truthy old)); [rewrite (Hexec _ _ Hset); exact I|].
      unfold bind at 1 in Hset.
      destruct (decrypt c old) as [oldData|e1] eqn:Hdec.
      2: { injection Hset as <- _. rewrite (decrypt_error _ _ _ Hdec). exact I. }
      destruct (is_nullish oldData); [injection Hset as <- _; exact I|].
      destruct (0 <? _)%nat; [rewrite (Hexec _ _ Hset); exact I|discriminate].
Qed.

(** X2. The concurrent-update error is never a false alarm. When [set]
    raises it, the collection has no default time-to-live, the caller gave
    an expected value that is truthy, the previous token decoded, and what
    it decoded to is not deep-equal to the expected value; by then the key
    holds the new token. *)
Theorem concurrent_update_means_a_mismatch (c : Collection)
    (data : list (string * value)) (exp : option value) (st st' : state) :
  set c data exp st = (Err ConcurrentUpdate, st') ->
  has_defaultTTL c = None /\
  (exists expected old,
     exp = Some expected /\ truthy expected = true /\
     decrypt c (previous_value (db st) (record_key c (field data "id"))) = Ok old /\
     isEqual old expected = false) /\
  value_at (db st') (record_key c (field data "id")) = Some (encrypt c (VObj data)).
Proof.
  intros Hset. destruct (set_raises _ _ _ _ _ _ Hset) as (Httl & Hmis).
  split; [exact Httl|]. split; [exact Hmis|].
  destruct (set_without_ttl_runs _ _ _ _ _ _ Httl Hset) as (evs & _ & Hrefused & Hdone).
  destruct (holds_set (db st) (record_key c (field data "id"))) eqn:Hk.
  - destruct (Hrefused eq_refl) as (Hr & _). discriminate.
  - destruct (Hdone eq_refl) as (cs & -> & _). unfold value_at.
    erewrite do_exec_value_frame; [reflexivity|]. apply lookup_insert_eq.
Qed.

(** ** Collections as a program can build them *)

Lemma reachable_is_indexed_or_expiring (c : Collection) :
  reachable c -> has_defaultTTL c = None \/ indexes c = [].
Proof.
  intros Hc. induction Hc as [meta c Hnew|c indexOn c' i _ _ Hadd].
  - right. unfold new_Collection in Hnew.
    destruct (meta ≫= m_enableEncryption) as [enc|].
    + destruct (new_Tokenizer _ _); [|discriminate]. injection Hnew as <-. reflexivity.
    + injection Hnew as <-. reflexivity.
  - left. unfold addIndex in Hadd.
    destruct (has_defaultTTL c) as [ttl|] eqn:Httl; [discriminate|].
    injection Hadd as <- _. exact Httl.
Qed.

(** X3. Default time-to-live and indexes exclude each other on every
    collection a program can hold, that is one the constructor built and
    [addIndex] extended any number of times. On such a collection [set]
    never ends with the error [setex] raises for indexed collections: what
    it throws is a refusal of the store, a token that does not decode, a
    concurrent update, or a type error on the previous record. *)
Theorem indexed_collections_never_expire (c : Collection) :
  reachable c ->
  (has_defaultTTL c = None \/ indexes c = []) /\
  forall (data : list (string * value)) (exp : option value) (st st' : state) (e : error),
    set c data exp st = (Err e, st') ->
    e = StoreError \/ e = DecodeError \/ e = ConcurrentUpdate \/ e = TypeError.
Proof.
  intros Hc. pose proof (reachable_is_indexed_or_expiring c Hc) as Hinv.
  split; [exact Hinv|]. intros data exp st st' e Hset.
  pose proof (set_raises _ _ _ _ _ _ Hset) as Hcases.
  destruct e; try contradiction; auto.
  destruct Hcases as [Httl Hidx]. destruct Hinv; contradiction.
Qed.

(** X4. The constructor fails in one case only: encryption is asked for
    and the secret or the initialisation vector is missing or empty. The
    error is then the one of the tokenizer. In every other case it builds a
    collection without index, with a tokenizer exactly when encryption was
    asked for, and with a default time-to-live exactly when one other than
    zero was given. *)
Theorem new_Collection_fails_on_a_missing_secret_only (meta : option Meta) :
  match new_Collection meta with
  | Err e =>
      e = MissingSecretOrIV /\
      exists enc, meta ≫= m_enableEncryption = Some enc /\
                  (default "" (m_secret enc) = "" \/ default "" (m_iv enc) = "")
  | Ok c =>
      indexes c = [] /\
      has_defaultTTL c = (t ← meta ≫= m_defaultTTL; if Z.eqb t 0 then None else Some t) /\
      match meta ≫= m_enableEncryption with
      | None => tokenizer c = None
      | Some enc =>
          exists k i, m_secret enc = Some k /\ m_iv enc = Some i /\ k <> "" /\ i <> "" /\
                      tokenizer c = Some {| secretKey := k; iv := i |}
      end
  end.
Proof.
  unfold new_Collection, new_Tokenizer.
  assert (Httl : forall tok p,
            has_defaultTTL {| tokenizer := tok;
                              defaultTTL := match meta ≫= m_defaultTTL with
                                            | Some t => if Z.eqb t 0 then None else Some t
                                            | None => None
                                            end;
                              indexes := []; keyPrefix := p |}
            = (t ← meta ≫= m_defaultTTL; if Z.eqb t 0 then None else Some t)).
  { intros tok p. unfold has_defaultTTL. cbn [defaultTTL].
    destruct (meta ≫= m_defaultTTL) as [t|]; [|reflexivity]. simpl.
    destruct (Z.eqb t 0) eqn:Ht; [reflexivity|]. rewrite Ht. reflexivity. }
  destruct (meta ≫= m_enableEncryption) as [enc|].
  - destruct (String.eqb_spec (default "" (m_secret enc)) "") as [Hs|Hs]; cbn [orb].
    { split; [reflexivity|]. exists enc. auto. }
    destruct (String.eqb_spec (default "" (m_iv enc)) "") as [Hi|Hi].
    { split; [reflexivity|]. exists enc. auto. }
    split; [reflexivity|]. split; [apply Httl|].
    destruct (m_secret enc) as [k|]; [|contradiction Hs; reflexivity].
    destruct (m_iv enc) as [i|]; [|contradiction Hi; reflexivity].
    exists k, i. cbn in *. auto 6.
  - split; [reflexivity|]. split; [apply Httl|reflexivity].
Qed.

(** ** Reads *)

Lemma decode_all_plain (c : Collection) (datas : list value) :
  tokenizer c = None ->
  decode_all c datas = Ok (map (fun data => if truthy data then data else VNull) datas).
Proof.
  intros Htok. induction datas as [|data rest IH]; [reflexivity|].
  cbn [decode_all map]. rewrite IH. unfold decrypt. rewrite Htok.
  destruct (truthy data); reflexivity.
Qed.

Lemma getMany_plain (c : Collection) (ids : list value) (st : state) :
  tokenizer c = None ->
  (getMany c ids st).1
  = Ok (map (fun id =>
               let v := previous_value (db st) (record_key c id) in
               if truthy v then v else VNull) ids).
Proof.
  intros Htok. destruct ids as [|id ids]; [reflexivity|].
  unfold getMany, bind, redis_mget, lift. cbn [fst].
  rewrite (decode_all_plain _ _ Htok). unfold do_mget, previous_value.
  rewrite !map_map. reflexivity.
Qed.

(** X5. Without encryption [getMany] never throws on the answer of the
    store: it returns one element per identifier, in order, each the value
    stored under the key of that identifier, or [null] when the key holds
    nothing, a set, or a falsy value. It asks the store once, for all the
    keys, and not at all for an empty list. *)
Theorem getMany_without_encryption (c : Collection) (ids : list value) (st : state) :
  tokenizer c = None ->
  getMany c ids st
  = (Ok (map (fun id =>
                let v := previous_value (db st) (record_key c id) in
                if truthy v then v else VNull) ids),
     match ids with
     | [] => st
     | _ :: _ => emit (EMget (map (record_key c) ids)) st
     end).
Proof.
  intros Htok. destruct ids as [|id ids]; [reflexivity|].
  unfold getMany, bind, redis_mget, lift.
  rewrite (decode_all_plain _ _ Htok). unfold do_mget, previous_value.
  rewrite !map_map. reflexivity.
Qed.

(** X6. The three reads change nothing in the store, whether they return
    or throw: no key is written, no expiry is touched, and [getItems] leaves
    an index entry as it found it, members without a record included. *)
Theorem reads_leave_the_store (c : Collection) (st : state) :
  (forall id, db (get c id st).2 = db st) /\
  (forall ids, db (getMany c ids st).2 = db st) /\
  (forall indexOn v, db (getItems {| collection := c; key := indexOn |} v st).2 = db st).
Proof.
  assert (Hmany : forall ids st0, db (getMany c ids st0).2 = db st0).
  { intros ids st0. unfold getMany, bind, redis_mget, lift, ret.
    destruct ids; reflexivity. }
  split; [|split].
  - intros id. unfold get, bind, redis_get, lift, ret.
    destruct (do_get _ _) as [data|e]; [|reflexivity].
    destruct (negb (truthy data)); reflexivity.
  - intros ids. apply Hmany.
  - intros indexOn v. unfold getItems, bind, redis_smembers, ret. cbn [collection key].
    destruct (do_smembers _ _) as [[|m ms]|e]; try reflexivity.
    pose proof (Hmany (map revive (m :: ms)) (emit (ESmembers (index_key c indexOn v)) st))
      as Hdb.
    destruct (getMany c _ _) as [[items|e] st2]; exact Hdb.
Qed.

(** X7. [update] of a record that is not there. When the key of the
    identifier holds no set and what it holds is absent or falsy, [update]
    throws the not-found error after one read: nothing is written, nothing
    is decoded, and the call does not retry, whatever the patch, the other
    clients and the attempt number are. *)
Theorem update_of_a_missing_record (c : Collection) (id : value) (dataOrCb : patch)
    (others : nat -> gmap string entry -> gmap string entry) (n : nat) (st : state) :
  holds_set (db st) (record_key c id) = false ->
  truthy (previous_value (db st) (record_key c id)) = false ->
  update c id dataOrCb others n st
  = (Err ItemNotFound, emit (EGet (record_key c id)) st).
Proof.
  intros Hk Hv. rewrite update_attempt.
  assert (Hget : get c id st = (Ok VNull, emit (EGet (record_key c id)) st)).
  { unfold get, bind, redis_get, do_get.
    unfold holds_set in Hk. unfold previous_value, value_at in Hv.
    destruct (db st !! record_key c id) as [[[v|ms] ttl]|]; try discriminate.
    - cbn in Hv. rewrite Hv. reflexivity.
    - reflexivity. }
  rewrite Hget. reflexivity.
Qed.


(** ** The keys a collection writes *)

Lemma prefix_append (p s : string) : String.prefix p (p +:+ s) = true.
Proof.
  induction p as [|a p IH]; [destruct s; reflexivity|].
  change (String a p +:+ s) with (String a (p +:+ s)). cbn [String.prefix].
  destruct (ascii_dec a a) as [_|Hne]; [exact IH|contradiction].
Qed.

Lemma writes_ret {A : Type} (P : string -> Prop) (a : A) : writes_only P (ret a).
Proof. intros st k _. reflexivity. Qed.

Lemma writes_throw {A : Type} (P : string -> Prop) (e : error) : writes_only P (@throw A e).
Proof. intros st k _. reflexivity. Qed.

Lemma writes_lift {A : Type} (P : string -> Prop) (r : result A) : writes_only P (lift r).
Proof. intros st k _. reflexivity. Qed.

Lemma writes_bind {A B : Type} (P : string -> Prop) (m : M A) (f : A -> M B) :
  writes_only P m -> (forall a, writes_only P (f a)) -> writes_only P (bind m f).
Proof.
  intros Hm Hf st k Hk. unfold bind. specialize (Hm st k Hk).
  destruct (m st) as [[a|e] st1]; [|exact Hm].
  rewrite (Hf a st1 k Hk). exact Hm.
Qed.

Lemma writes_try_catch {A : Type} (P : string -> Prop) (m : M A) (h : error -> M A) :
  writes_only P m -> (forall e, writes_only P (h e)) -> writes_only P (try_catch m h).
Proof.
  intros Hm Hh st k Hk. unfold try_catch. specialize (Hm st k Hk).
  destruct (m st) as [[a|e] st1]; [exact Hm|].
  rewrite (Hh e st1 k Hk). exact Hm.
Qed.

Lemma writes_redis_get (P : string -> Prop) (k0 : string) : writes_only P (redis_get k0).
Proof. intros st k _. reflexivity. Qed.

Lemma writes_redis_mget (P : string -> Prop) (ks : list string) :
  writes_only P (redis_mget ks).
Proof. intros st k _. reflexivity. Qed.

Lemma writes_redis_smembers (P : string -> Prop) (k0 : string) :
  writes_only P (redis_smembers k0).
Proof. intros st k _. reflexivity. Qed.

Lemma writes_console_warn (P : string -> Prop) : writes_only P console_warn.
Proof. intros st k _. reflexivity. Qed.

Lemma writes_sleep (P : string -> Prop) (ms : Z) : writes_only P (sleep ms).
Proof. intros st k _. reflexivity. Qed.

Lemma writes_alone (P : string -> Prop) (n : nat) : writes_only P (others_run (alone n)).
Proof. intros st k _. reflexivity. Qed.

Lemma writes_redis_set (P : string -> Prop) (k0 : string) (v : value) (o : set_option) :
  P k0 -> writes_only P (redis_set k0 v o).
Proof.
  intros Hk0 st k Hk. unfold redis_set.
  assert (Hne : k0 <> k) by (intros ->; contradiction).
  unfold do_set. destruct o.
  - destruct (db st !! k0) as [[[old|ms] ttl]|]; cbn [snd db emit with_db];
      try reflexivity; apply lookup_insert_ne; exact Hne.
  - destruct (seconds <=? 0); [reflexivity|].
    destruct (db st !! k0) as [[[old|ms] ttl]|]; cbn [snd db emit with_db];
      try reflexivity; apply lookup_insert_ne; exact Hne.
Qed.

Lemma writes_redis_persist (P : string -> Prop) (k0 : string) :
  P k0 -> writes_only P (redis_persist k0).
Proof.
  intros Hk0 st k Hk. unfold redis_persist, do_persist. cbn [snd db emit with_db].
  assert (Hne : k0 <> k) by (intros ->; contradiction).
  destruct (db st !! k0) as [[p ttl]|]; [|reflexivity].
  apply lookup_insert_ne. exact Hne.
Qed.

Lemma do_command_frame (cmd : pipeline_command) (d : gmap string entry) (k : string) :
  command_key cmd <> k -> (do_command cmd d).2 !! k = d !! k.
Proof.
  intros Hne. destruct cmd as [k0 m|k0 m]; cbn [command_key] in Hne; cbn [do_command].
  - destruct (d !! k0) as [[[v|ms] ttl]|]; cbn [snd]; try reflexivity.
    + destruct (is_member m ms); [reflexivity|]. apply lookup_insert_ne. exact Hne.
    + apply lookup_insert_ne. exact Hne.
  - destruct (d !! k0) as [[[v|ms] ttl]|]; cbn [snd]; try reflexivity.
    destruct (without m ms).
    + apply lookup_delete_ne. exact Hne.
    + apply lookup_insert_ne. exact Hne.
Qed.

Lemma do_exec_frame (cs : list pipeline_command) (d : gmap string entry) (k : string) :
  Forall (fun cmd => command_key cmd <> k) cs -> (do_exec cs d).2 !! k = d !! k.
Proof.
  intros Hcs. revert d. induction Hcs as [|cmd cs Hcmd _ IH]; intros d; [reflexivity|].
  cbn [do_exec]. pose proof (do_command_frame cmd d k Hcmd) as Hc.
  destruct (do_command cmd d) as [ok d1]. cbn [snd] in Hc.
  specialize (IH d1). destruct (do_exec cs d1) as [oks d2]. cbn [snd] in *.
  rewrite IH. exact Hc.
Qed.

Lemma writes_pipeline_exec (P : string -> Prop) (cs : list pipeline_command) :
  Forall (fun cmd => P (command_key cmd)) cs -> writes_only P (pipeline_exec cs).
Proof.
  intros Hcs st k Hk. unfold pipeline_exec.
  pose proof (do_exec_frame cs (db st) k) as Hframe.
  destruct (do_exec cs (db st)) as [ok d]. cbn [snd db emit with_db] in *.
  apply Hframe. eapply Forall_impl; [exact Hcs|].
  intros cmd Hcmd Heq. apply Hk. rewrite <- Heq. exact Hcmd.
Qed.

Lemma sadd_commands_keys (c : Collection) (data : list (string * value)) :
  Forall (fun cmd => String.prefix (keyPrefix c) (command_key cmd) = true)
         (sadd_commands c data).
Proof.
  unfold sadd_commands. apply Forall_map. apply Forall_forall. intros indexOn _.
  apply prefix_append.
Qed.

Lemma srem_commands_keys (c : Collection) (oldData : value) (data : list (string * value)) :
  Forall (fun cmd => String.prefix (keyPrefix c) (command_key cmd) = true)
         (srem_commands c oldData data).
Proof.
  unfold srem_commands. apply Forall_flat_map. apply Forall_forall. intros indexOn _.
  destruct (negb _); [|constructor].
  constructor; [apply prefix_append|constructor].
Qed.

Create HintDb writes.
#[local] Hint Resolve writes_ret writes_throw writes_lift writes_redis_get writes_redis_mget
  writes_redis_smembers writes_console_warn writes_sleep writes_alone : writes.

Ltac writes_step :=
  first
    [ solve [auto with writes]
    | apply writes_redis_set; apply prefix_append
    | apply writes_redis_persist; apply prefix_append
    | apply writes_pipeline_exec;
      first [ apply sadd_commands_keys
            | apply Forall_app; split; [apply sadd_commands_keys|apply srem_commands_keys] ]
    | apply writes_bind; [|intros ?]
    | apply writes_try_catch; [|intros ?]
    | match goal with
      | |- writes_only _ (if ?b then _ else _) => destruct b
      | |- writes_only _ (match ?x with _ => _ end) => destruct x
      end ].

Lemma writes_getMany (c : Collection) (ids : list value) :
  writes_only (fun k => String.prefix (keyPrefix c) k = true) (getMany c ids).
Proof. unfold getMany. repeat writes_step. Qed.

Lemma writes_set (c : Collection) (data : list (string * value)) (exp : option value) :
  writes_only (fun k => String.prefix (keyPrefix c) k = true) (set c data exp).
Proof. unfold set, setex. repeat writes_step. Qed.

Lemma writes_update_loop (fuel : nat) (c : Collection) (id : value) (dataOrCb : patch)
    (n : nat) :
  writes_only (fun k => String.prefix (keyPrefix c) k = true)
              (update_loop fuel c id dataOrCb alone n).
Proof.
  revert n. induction fuel as [|fuel IH]; intros n; cbn [update_loop]; [apply writes_throw|].
  apply writes_bind; [unfold get; repeat writes_step|]. intros item.
  destruct (negb (truthy item)); [apply writes_throw|].
  apply writes_bind; [apply writes_alone|]. intros _.
  apply writes_try_catch; [apply writes_set|]. intros _.
  destruct (n <? 3)%nat; [|apply writes_throw].
  apply writes_bind; [apply writes_console_warn|]. intros _.
  apply writes_bind; [apply writes_sleep|]. intros _. apply IH.
Qed.

(** X9. A collection writes under its own prefix only. Whatever call is
    made on a collection or on one of its indexes, and whether it returns
    or throws, every key that does not start with the prefix of the
    collection is left as it was: its value or set, and its expiry. *)
Theorem calls_write_under_the_prefix_only
    (c : Collection) (op : call) (st : state) (k : string) :
  String.prefix (keyPrefix c) k = false ->
  db (after c op st) !! k = db st !! k.
Proof.
  intros Hk.
  assert (Hout : ~ String.prefix (keyPrefix c) k = true) by (rewrite Hk; discriminate).
  destruct op; cbn [after].
  - assert (Hw : writes_only (fun k => String.prefix (keyPrefix c) k = true) (get c id))
      by (unfold get; repeat writes_step).
    exact (Hw st k Hout).
  - exact (writes_getMany c ids st k Hout).
  - exact (writes_set c data _expectedOld st k Hout).
  - assert (Hw : writes_only (fun k => String.prefix (keyPrefix c) k = true)
                             (setex c data ttl))
      by (unfold setex; repeat writes_step).
    exact (Hw st k Hout).
  - exact (writes_update_loop _ c id dataOrCb 0 st k Hout).
  - assert (Hw : writes_only (fun k => String.prefix (keyPrefix c) k = true) (persist c id))
      by (unfold persist; repeat writes_step).
    exact (Hw st k Hout).
  - assert (Hw : writes_only (fun k => String.prefix (keyPrefix c) k = true)
                             (getItems {| collection := c; key := indexOn |} v))
      by (unfold getItems; cbn [collection key]; apply writes_bind;
          [auto with writes|intros [|m ms]; [auto with writes|];
           apply writes_bind; [apply writes_getMany|intros ?; auto with writes]]).
    exact (Hw st k Hout).
Qed.


(** ** [update] *)







(** X12. On a collection with a default time-to-live [update] does not
    detect concurrent writes. Whatever the other clients stored under the
    key between the read and the write, short of a set, the first attempt
    overwrites it and returns: one read, one write with the default expiry,
    no comparison with what was read, no pause. *)
Theorem update_on_an_expiring_collection_overwrites
    (c : Collection) (t : Z) (id : value) (item : value) (dataOrCb : patch)
    (others : nat -> gmap string entry -> gmap string entry) (n : nat)
    (st st1 : state) :
  let merged := merge item dataOrCb in
  let k' := record_key c (field merged "id") in
  has_defaultTTL c = Some t -> 0 < t -> indexes c = [] ->
  get c id st = (Ok item, st1) -> truthy item = true ->
  holds_set (others n (db st)) k' = false ->
  exists st',
    update c id dataOrCb others n st = (Ok (VObj merged), st') /\
    value_at (db st') k' = Some (encrypt c (VObj merged)) /\
    ttl_of (db st') k' = Some t /\
    trace st'
    = trace st ++ [EGet (record_key c id); ESet k' (encrypt c (VObj merged)) (Ex t)].
Proof.
  intros merged k' Httl Hpos Hidx Hget Htruthy Hk.
  rewrite update_attempt, Hget, Htruthy. cbn [negb]. fold merged.
  destruct (get_runs _ _ _ _ _ Hget) as [-> _].
  unfold set. rewrite Httl. unfold setex. rewrite Hidx.
  unfold bind, redis_set, ret. fold k'. cbn [db emit with_db].
  rewrite (do_set_Ex _ _ _ _ Hk Hpos).
  eexists. split; [reflexivity|]. split; [|split].
  - cbn [db emit with_db]. apply value_at_insert_eq.
  - cbn [db emit with_db]. apply ttl_of_insert_eq.
  - cbn [trace emit with_db]. rewrite <- app_assoc. reflexivity.
Qed.

(** X13. What [update] writes, field by field. When neither the item nor
    what the patch gives lists a property twice, each property of the
    merged record is the one the patch gives when it gives one, and the one
    of the item otherwise: no property of the item is dropped. A patch
    given as a callback is applied to the item without its [id], every
    other property as it is in the item. *)
Theorem merge_takes_the_patch_first
    (item : list (string * value)) (dataOrCb : patch) (k : string) :
  let itemWithOutId := omit "id" (VObj item) in
  let given :=
    match dataOrCb with
    | PatchData data => data
    | PatchFn cb => cb itemWithOutId
    end in
  NoDup (map fst item) -> NoDup (map fst (own_props given)) ->
  lookup_prop k (merge (VObj item) dataOrCb)
  = match lookup_prop k (own_props given) with
    | Some v => Some v
    | None => lookup_prop k item
    end /\
  lookup_prop "id" (own_props itemWithOutId) = None /\
  (k <> "id" -> lookup_prop k (own_props itemWithOutId) = lookup_prop k item).
Proof.
  intros itemWithOutId given Hitem Hgiven. split; [|split].
  - unfold merge. fold itemWithOutId.
    destruct dataOrCb as [data|cb]; exact (lookup_spread2 k (VObj item) _ Hitem Hgiven).
  - unfold itemWithOutId, omit. cbn [own_props]. clear.
    induction item as [|[k' v'] item IH]; [reflexivity|]. cbn [List.filter fst].
    destruct (String.eqb_spec k' "id") as [->|Hne]; cbn [negb]; [exact IH|].
    cbn [lookup_prop]. destruct (String.eqb_spec "id" k') as [Heq|_]; [|exact IH].
    contradiction Hne. symmetry. exact Heq.
  - intros Hk. unfold itemWithOutId, omit. cbn [own_props]. clear -Hk.
    induction item as [|[k' v'] item IH]; [reflexivity|]. cbn [List.filter fst].
    destruct (String.eqb_spec k' "id") as [->|Hne]; cbn [negb lookup_prop].
    + destruct (String.eqb_spec k "id") as [Heq|_]; [contradiction|exact IH].
    + rewrite IH. reflexivity.
Qed.

(** ** The index entries *)


(** An accepted [SADD] leaves the member in the set. *)
Lemma sadd_adds (k m : string) (d : gmap string entry) :
  (do_command (Sadd k m) d).1 = true ->
  In m (members_at (do_command (Sadd k m) d).2 k).
Proof.
  cbn [do_command]. unfold members_at.
  destruct (d !! k) as [[[v|ms] ttl]|] eqn:Hk; cbn [fst snd]; try discriminate; intros _.
  - destruct (is_member m ms) eqn:Hm.
    + rewrite Hk. apply is_member_In. exact Hm.
    + rewrite lookup_insert_eq. apply in_or_app. right. left. reflexivity.
  - rewrite lookup_insert_eq. left. reflexivity.
Qed.

(** [SADD] removes no member of any set. *)
Lemma sadd_keeps (k0 m0 k m : string) (d : gmap string entry) :
  In m (members_at d k) -> In m (members_at (do_command (Sadd k0 m0) d).2 k).
Proof.
  cbn [do_command]. unfold members_at. intros Hin.
  destruct (d !! k0) as [[[v|ms] ttl]|] eqn:Hk0; cbn [snd]; try exact Hin.
  - destruct (is_member m0 ms); [exact Hin|].
    destruct (decide (k0 = k)) as [->|Hne].
    + rewrite lookup_insert_eq. rewrite Hk0 in Hin. apply in_or_app. left. exact Hin.
    + rewrite lookup_insert_ne by exact Hne. exact Hin.
  - destruct (decide (k0 = k)) as [->|Hne].
    + rewrite Hk0 in Hin. destruct Hin.
    + rewrite lookup_insert_ne by exact Hne. exact Hin.
Qed.





(** The first loop of [set], once accepted, has the primary key in the
    entry of every index. *)
Lemma sadd_commands_add (c : Collection) (data : list (string * value))
    (indexOn : string) (d : gmap string entry) :
  In indexOn (indexes c) ->
  (do_exec (sadd_commands c data) d).1 = true ->
  In (to_string (field data "id"))
     (members_at (do_exec (sadd_commands c data) d).2
        (index_key c indexOn (field data indexOn))).
Proof.
  unfold sadd_commands. set (m := to_string (field data "id")).
  set (k := index_key c indexOn (field data indexOn)).
  assert (Hkeep : forall l d0,
            In m (members_at d0 k) ->
            In m (members_at
                    (do_exec (map (fun i => Sadd (index_key c i (field data i)) m) l) d0).2 k)).
  { induction l as [|i l IHl]; intros d0 Hin; [exact Hin|]. cbn [map do_exec].
    pose proof (sadd_keeps (index_key c i (field data i)) m k m d0 Hin) as Hstep.
    destruct (do_command _ d0) as [ok d1]. cbn [snd] in Hstep.
    specialize (IHl d1 Hstep). destruct (do_exec _ d1) as [oks d2]. exact IHl. }
  revert d. induction (indexes c) as [|i l IH]; intros d Hin Hok; [destruct Hin|].
  cbn [map do_exec] in *.
  pose proof (sadd_adds (index_key c i (field data i)) m d) as Hadd.
  destruct (do_command _ d) as [ok d1]. cbn [fst snd] in Hadd.
  specialize (IH d1). specialize (Hkeep l d1).
  destruct (do_exec _ d1) as [oks d2]. cbn [fst snd] in *.
  apply andb_prop in Hok as [-> ->].
  destruct Hin as [->|Hin]; [apply Hkeep, Hadd; reflexivity|apply IH; auto].
Qed.






(** X15. A new record is found through every index. The collection has
    no encryption and no default time-to-live, the record is serializable,
    and its primary key is one the client hands back as it was written: the
    member of the index entry, once the client has read it, gives the same
    key again. When [set] of the record returns on a store that held
    nothing under its key, then [getItems] on any index of the collection,
    asked for the value the record has in the indexed field, returns a list
    that contains the record. *)
Theorem getItems_finds_a_new_record
    (c : Collection) (indexOn : string) (data : list (string * value))
    (exp : option value) (st st' : state) (r : value) :
  tokenizer c = None -> has_defaultTTL c = None ->
  In indexOn (indexes c) ->
  serializable (VObj data) = true ->
  to_string (revive (to_string (field data "id"))) = to_string (field data "id") ->
  db st !! record_key c (field data "id") = None ->
  set c data exp st = (Ok r, st') ->
  exists items,
    (getItems {| collection := c; key := indexOn |} (field data indexOn) st').1 = Ok items /\
    In (VObj data) items.
Proof.
  intros Htok Httl Hin _ Hrevive Hfree Hset.
  set (k := record_key c (field data "id")) in *.
  set (m := to_string (field data "id")) in *.
  set (ik := index_key c indexOn (field data indexOn)).
  assert (Hstored : value_at (db st') k = Some (VObj data)).
  { pose proof (set_stores_the_token _ _ _ _ _ _ Hset) as Hv.
    unfold encrypt in Hv. rewrite Htok in Hv. exact Hv. }
  assert (Hmember : In m (members_at (db st') ik)).
  { unfold set in Hset. rewrite Httl in Hset.
    unfold bind at 1, redis_set, do_set in Hset. fold k in Hset. rewrite Hfree in Hset.
    unfold bind at 1, lift, decrypt, encrypt in Hset. rewrite Htok in Hset.
    destruct (match exp with Some expected => _ | None => false end); [discriminate|].
    destruct (indexes c) as [|i0 l] eqn:Hl; [destruct Hin|]. rewrite <- Hl in *.
    cbn [truthy negb] in Hset.
    unfold bind, pipeline_exec, ret in Hset. cbn [db with_db emit] in Hset.
    pose proof (sadd_commands_add c data indexOn
                  (<[k := Entry (PValue (VObj data)) None]> (db st)) Hin) as Hadd.
    destruct (do_exec (sadd_commands c data) _) as [ok d2]. cbn [fst snd] in Hadd.
    destruct ok; [|discriminate]. injection Hset as _ <-. exact (Hadd eq_refl). }
  unfold getItems, bind, redis_smembers, do_smembers. cbn [collection key]. fold ik.
  unfold members_at in Hmember.
  destruct (db st' !! ik) as [[[v|ms] ttl]|]; try (destruct Hmember).
  destruct ms as [|m0 ms]; [destruct Hmember|].
  set (st1 := emit (ESmembers ik) st').
  pose proof (getMany_plain c (map revive (m0 :: ms)) st1 Htok) as Hmany.
  assert (Hfound : In (VObj data)
                      (map (fun id =>
                              let v := previous_value (db st1) (record_key c id) in
                              if truthy v then v else VNull)
                           (map revive (m0 :: ms)))).
  { apply in_map_iff. exists (revive m). split.
    - unfold record_key. rewrite Hrevive. change (keyPrefix c +:+ m) with k.
      change (db st1) with (db st'). unfold previous_value. rewrite Hstored. reflexivity.
    - apply in_map. exact Hmember. }
  destruct (getMany c (map revive (m0 :: ms)) st1) as [[items|e] st2];
    cbn [fst] in Hmany; [|discriminate].
  injection Hmany as ->. eexists. split; [reflexivity|].
  apply filter_In. split; [exact Hfound|reflexivity].
Qed.

(** X16. What [getItems] returns is in the store. Without encryption,
    every item [getItems] returns is the value stored under the key that a
    member of the index entry gives once the client has read it, and none is
    [null]: a member whose record is gone is skipped. The entry is not
    checked against the records: nothing says the indexed field of an item
    still has the value asked for, nor that the key read is the one the
    member was written for. *)
Theorem getItems_returns_stored_records
    (c : Collection) (indexOn : string) (v : value) (st st' : state) (items : list value) :
  tokenizer c = None ->
  getItems {| collection := c; key := indexOn |} v st = (Ok items, st') ->
  Forall (fun item =>
            item <> VNull /\
            exists m, In m (members_at (db st) (index_key c indexOn v)) /\
                      value_at (db st) (record_key c (revive m)) = Some item)
         items.
Proof.
  intros Htok. unfold getItems, bind, redis_smembers, do_smembers, members_at.
  cbn [collection key]. set (ik := index_key c indexOn v).
  destruct (db st !! ik) as [[[w|ms] ttl]|]; try discriminate.
  2: { intros [= <- _]. constructor. }
  destruct ms as [|m0 ms]; [intros [= <- _]; constructor|].
  set (st1 := emit (ESmembers ik) st).
  pose proof (getMany_plain c (map revive (m0 :: ms)) st1 Htok) as Hmany.
  destruct (getMany c (map revive (m0 :: ms)) st1) as [[found|e] st2];
    cbn [fst] in Hmany; [|discriminate].
  pose (F := fun id : value =>
                if truthy (previous_value (db st) (record_key c id))
                then previous_value (db st) (record_key c id) else VNull).
  assert (Hfound : found = map F (map revive (m0 :: ms)))
    by (injection Hmany as ->; reflexivity).
  unfold ret. intros [= <- _]. apply Forall_forall. intros item Hitem.
  apply list_elem_of_In, filter_In in Hitem as [Hitem Hnonnull].
  assert (Hne : item <> VNull) by (intros ->; discriminate). split; [exact Hne|].
  rewrite Hfound in Hitem.
  apply in_map_iff in Hitem as (id & Hid & Hin).
  apply in_map_iff in Hin as (m & <- & Hm). exists m. split; [exact Hm|].
  unfold F, previous_value in Hid.
  destruct (value_at (db st) (record_key c (revive m))) as [x|]; simpl in Hid.
  - destruct (truthy x); [congruence|]. contradiction Hne. symmetry. exact Hid.
  - contradiction Hne. symmetry. exact Hid.
Qed.

(** X17. With encryption, no record gets an index entry. On a collection
    with a tokenizer, at least one index and no default time-to-live, take a
    key that holds nothing, or the token of an object without a property
    [ciphertext]. Then [set] writes the new token and throws before the
    pipeline is sent: decoding [null] fails on a first write, and on an
    overwrite the previous record, once decoded, is decoded a second time.
    The only round trip is the primary write, so the index entries are what
    they were. *)
Theorem encrypted_records_are_never_indexed
    (c : Collection) (t : Tokenizer) (data : list (string * value))
    (exp : option value) (st : state) :
  let k := record_key c (field data "id") in
  let tok := encrypt c (VObj data) in
  tokenizer c = Some t -> has_defaultTTL c = None -> indexes c <> [] ->
  (db st !! k = None \/
   exists was, decrypt c (previous_value (db st) k) = Ok (VObj was) /\
               lookup_prop "ciphertext" was = None) ->
  exists e,
    (e = DecodeError \/ e = ConcurrentUpdate) /\
    set c data exp st
    = (Err e,
       emit (ESet k tok KeepTtl)
         (with_db (<[k := Entry (PValue tok) (ttl_of (db st) k)]> (db st)) st)).
Proof.
  intros k tok Htok Httl Hidx Hheld.
  assert (Hnull : decrypt c VNull = Err DecodeError).
  { unfold decrypt. rewrite Htok. reflexivity. }
  assert (Hk : holds_set (db st) k = false).
  { destruct Hheld as [Hfree|(was & Hwas & _)].
    - unfold holds_set. rewrite Hfree. reflexivity.
    - unfold holds_set. unfold previous_value, value_at in Hwas.
      destruct (db st !! k) as [[[w|ms] ttl]|]; try reflexivity.
      cbn [default] in Hwas. rewrite Hnull in Hwas. discriminate. }
  unfold set. rewrite Httl. unfold bind at 1, redis_set. fold k tok.
  rewrite (do_set_KeepTtl _ _ _ Hk). unfold bind at 1, lift.
  destruct Hheld as [Hfree|(was & Hwas & _)].
  - unfold previous_value, value_at. rewrite Hfree. cbn [default]. rewrite Hnull.
    exists DecodeError. split; [left; reflexivity|]. reflexivity.
  - rewrite Hwas. unfold bind at 1.
    destruct (match exp with Some expected => _ | None => false end).
    { exists ConcurrentUpdate. split; [right; reflexivity|]. reflexivity. }
    destruct (indexes c) as [|i0 l]; [contradiction|].
    cbn [truthy negb]. unfold bind, lift, decrypt. rewrite Htok. cbn [fromToken].
    exists DecodeError. split; [left; reflexivity|]. reflexivity.
Qed.
End Further.

(** * The model on concrete stores *)

#[local] Existing Instance ReferenceLaws.collaborators.

Import Scenario.

Example customers_built :
  new_Collection (Some {| m_keyPrefix := Some "customers"; m_enableEncryption := None;
                          m_defaultTTL := None |}) = Ok customers.
Proof. reflexivity. Qed.

Example sessions_built :
  new_Collection (Some {| m_keyPrefix := Some "customers"; m_enableEncryption := None;
                          m_defaultTTL := Some 600 |}) = Ok sessions.
Proof. reflexivity. Qed.

Example vault_built :
  new_Collection (Some {| m_keyPrefix := Some "customers";
                          m_enableEncryption :=
                            Some {| m_iv := Some vector; m_secret := Some secret |};
                          m_defaultTTL := None |}) = Ok vault.
Proof. reflexivity. Qed.

(** C1, the claim as stated fails: on a collection with a default
    time-to-live, [set] hands over to [setex] and never looks at the
    expected value. The store holds [team], the caller expects [free], and
    the call returns normally. *)
Lemma set_with_default_ttl_ignores_the_expected_value :
  decrypt sessions (previous_value (db (holding (VObj team))) "customers:c1")
  = Ok (VObj team) /\
  isEqual (VObj team) (VObj free) = false /\
  (set sessions pro (Some (VObj free)) (holding (VObj team))).1 = Ok (VObj pro).
Proof. vm_compute. auto. Qed.

(** C1, as amended, on a store that holds [team] while the caller expects
    [free]. *)
Lemma set_rejects_after_the_write_witness :
  exists st',
    set customers pro (Some (VObj free)) (holding (VObj team))
    = (Err ConcurrentUpdate, st') /\
    value_at (db st') "customers:c1" = Some (VObj pro) /\
    ttl_of (db st') "customers:c1" = None /\
    trace st' = [ESet "customers:c1" (VObj pro) KeepTtl].
Proof.
  apply (set_rejects_after_the_write customers pro (VObj free) (VObj team)
           (holding (VObj team)));
    vm_compute; reflexivity.
Defined.

(** C2, on the code. The collection has an index on [active]. A record is
    written with the string ["true"] in that field, then again with the
    boolean [true]: the two values differ, by [!==] and by deep equality,
    but give the same index key. The second [set] enqueues the [sadd] of the
    new value and then the [srem] of the old one on that same key, so the
    record is in no index entry and [getItems(true)] finds nothing.
    Likewise a record whose indexed field is an array, written twice
    unchanged: the stored array is never [===] to the caller's, the [srem]
    is issued, and the record leaves the index. *)
Theorem reindexing_under_the_same_key_drops_the_record :
  let was := [("id", VStr "c1"); ("active", VStr "true")] in
  let now := [("id", VStr "c1"); ("active", VBool true)] in
  let tagged := [("id", VStr "c1"); ("tags", VArr [VStr "vip"])] in
  (exists c idx st1 st2,
     addIndex customers "active" = Ok (c, idx) /\
     set c was None no_store = (Ok (VObj was), st1) /\
     set c now None st1 = (Ok (VObj now), st2) /\
     isEqual (field was "active") (field now "active") = false /\
     members_at (db st1) "customers:idx_active:true" = ["c1"] /\
     index_key c "active" (field now "active") = "customers:idx_active:true" /\
     members_at (db st2) "customers:idx_active:true" = [] /\
     value_at (db st2) "customers:c1" = Some (VObj now) /\
     (getItems idx (VBool true) st2).1 = Ok []) /\
  (exists c idx st1 st2,
     addIndex customers "tags" = Ok (c, idx) /\
     set c tagged None no_store = (Ok (VObj tagged), st1) /\
     set c tagged None st1 = (Ok (VObj tagged), st2) /\
     members_at (db st1) "customers:idx_tags:vip" = ["c1"] /\
     srem_commands c (VObj tagged) tagged = [Srem "customers:idx_tags:vip" "c1"] /\
     members_at (db st2) "customers:idx_tags:vip" = [] /\
     (getItems idx (VArr [VStr "vip"]) st2).1 = Ok []).
Proof.
  intros was now tagged. split.
  - eexists _, _, _, _. split; [reflexivity|].
    split; [vm_compute; reflexivity|]. split; [vm_compute; reflexivity|].
    vm_compute. repeat split; reflexivity.
  - eexists _, _, _, _. split; [reflexivity|].
    split; [vm_compute; reflexivity|]. split; [vm_compute; reflexivity|].
    vm_compute. repeat split; reflexivity.
Qed.

(** C3, on the code. The first write of a record to a collection with
    encryption: the token is stored and reads back as the record, but [set]
    has by then thrown, having passed the store's [null] answer to
    [fromToken]. *)
Theorem first_encrypted_write_throws :
  exists st1 token,
    set vault free None no_store = (Err DecodeError, st1) /\
    value_at (db st1) "customers:c1" = Some (VStr token) /\
    token = toToken {| secretKey := secret; iv := vector |} (VObj free) /\
    isEqual (VStr token) (VStr (json_stringify (VObj free))) = false /\
    (get vault (VStr "c1") st1).1 = Ok (VObj free).
Proof.
  eexists _, _. split; [vm_compute; reflexivity|].
  vm_compute. repeat split; reflexivity.
Qed.

(** C4, on the code. A patch that carries an [id] of its own: the record
    handed to [set] has the patch's [id], it is written under that other
    key at each of the four attempts, and the call ends with the terminal
    error; the record under the key that was asked for is untouched. *)
Theorem update_writes_under_the_id_of_the_patch :
  let patch := VObj [("id", VStr "c2"); ("plan", VStr "pro")] in
  let moved := [("id", VStr "c2"); ("plan", VStr "pro")] in
  exists st',
    merge (VObj free) (PatchData patch) = moved /\
    update customers (VStr "c1") (PatchData patch) alone 0 (holding (VObj free))
    = (Err NoMoreRetries, st') /\
    value_at (db st') "customers:c2" = Some (VObj moved) /\
    value_at (db st') "customers:c1" = Some (VObj free) /\
    List.filter (fun ev => match ev with ESet _ _ _ => true | _ => false end) (trace st')
    = repeat (ESet "customers:c2" (VObj moved) KeepTtl) 4.
Proof.
  intros patch moved. eexists. split; [reflexivity|].
  split; [vm_compute; reflexivity|]. vm_compute. repeat split; reflexivity.
Qed.

(** C5, the claim as stated fails: a decode error of the inner [set] is
    retried and does not reach the caller. The collection has encryption and
    an index, and the store holds the token of a record. The read of
    [update] decodes it; the inner [set] decodes the previous token, passes
    the concurrency check, then decodes the decoded record once more and
    throws. [update] pauses, starts again three times, and ends with the
    terminal error. *)
Lemma update_retries_a_decode_error :
  let token := VStr (toToken {| secretKey := secret; iv := vector |} (VObj free)) in
  let patch := PatchData (VObj [("plan", VStr "pro")]) in
  exists c idx st1 st',
    addIndex vault "plan" = Ok (c, idx) /\
    get c (VStr "c1") (holding token) = (Ok (VObj free), st1) /\
    (set c (merge (VObj free) patch) (Some (VObj free)) st1).1 = Err DecodeError /\
    update c (VStr "c1") patch alone 0 (holding token) = (Err NoMoreRetries, st') /\
    backoffs (trace st') = [ESleep 100; ESleep 100; ESleep 100].
Proof.
  intros token patch. eexists _, _, _, _. split; [reflexivity|].
  split; [vm_compute; reflexivity|]. split; [vm_compute; reflexivity|].
  split; [vm_compute; reflexivity|]. vm_compute. reflexivity.
Qed.

(** C5, as amended, on the run of C4's patch: the inner [set] raises the
    concurrent-update error, and the call is the call with one more retry
    on the store that attempt left, after the pause. *)
Lemma update_retries_whatever_set_raises_witness :
  let patch := PatchData (VObj [("id", VStr "c2"); ("plan", VStr "pro")]) in
  let st1 := emit (EGet "customers:c1") (holding (VObj free)) in
  exists st2,
    set customers (merge (VObj free) patch) (Some (VObj free)) st1
    = (Err ConcurrentUpdate, st2) /\
    update customers (VStr "c1") patch alone 0 (holding (VObj free))
    = update customers (VStr "c1") patch alone 1 (emit (ESleep 100) (emit EWarn st2)).
Proof.
  intros patch st1. eexists. split; [vm_compute; reflexivity|].
  destruct (update_retries_whatever_set_raises customers (VStr "c1") patch alone
              (holding (VObj free))) as (_ & _ & Hretry & _).
  apply (Hretry 0%nat (VObj free) st1 ConcurrentUpdate); vm_compute; reflexivity.
Defined.

(** C6, the claim as stated fails: one stored value that does not decode
    makes the whole call fail. Alone, the token of [c1] decodes; asked
    together with [c2] it is not returned, whether the key of [c2] holds a
    record written before encryption was configured or a string that is no
    ciphertext. *)
Lemma getMany_fails_on_one_bad_token :
  let token := VStr (toToken {| secretKey := secret; iv := vector |} (VObj free)) in
  let legacy := VObj [("id", VStr "c2"); ("plan", VStr "free")] in
  let with_c2 v := State (<["customers:c2" := Entry (PValue v) None]> (db (holding token))) [] in
  (getMany vault [VStr "c1"] (with_c2 legacy)).1 = Ok [VObj free] /\
  (getMany vault [VStr "c1"; VStr "c2"] (with_c2 legacy)).1 = Err DecodeError /\
  (getMany vault [VStr "c1"] (with_c2 (VStr "not-a-token"))).1 = Ok [VObj free] /\
  (getMany vault [VStr "c1"; VStr "c2"] (with_c2 (VStr "not-a-token"))).1 = Err DecodeError.
Proof. vm_compute. repeat split; reflexivity. Qed.

(** C6, as amended, on a store where [c1] holds a token and [c3] nothing. *)
Lemma getMany_is_aligned_or_fails_witness :
  let token := VStr (toToken {| secretKey := secret; iv := vector |} (VObj free)) in
  (getMany vault [VStr "c1"; VStr "c3"] (holding token)).2
  = emit (EMget ["customers:c1"; "customers:c3"]) (holding token) /\
  (getMany vault [VStr "c1"; VStr "c3"] (holding token)).1 = Ok [VObj free; VNull].
Proof.
  intros token.
  destruct (getMany_is_aligned_or_fails vault [VStr "c1"; VStr "c3"] (holding token))
    as (_ & Hsome).
  destruct (Hsome ltac:(discriminate)) as (Hst & _).
  split; [exact Hst|]. vm_compute. reflexivity.
Defined.

(** C7 on a store that holds a record: after [persist], the one call the
    class has on a key alone, the record is still there. *)
Lemma no_call_removes_a_stored_record_witness :
  exists v', value_at (db (after customers (CallPersist (VStr "c1")) (holding (VObj free))))
                      "customers:c1" = Some v'.
Proof.
  destruct no_call_removes_a_stored_record as (_ & Hkeeps).
  apply (Hkeeps customers (CallPersist (VStr "c1")) (holding (VObj free)) "customers:c1"
           (VObj free)).
  vm_compute. reflexivity.
Defined.

(** C8 on a key that expires in 90 seconds: [set] leaves the 90 seconds,
    [setex] puts 30 in their place. *)
Lemma set_keeps_the_expiry_and_setex_replaces_it_witness :
  let st := State (<["customers:c1" := Entry (PValue (VObj free)) (Some 90)]> ∅) [] in
  ttl_of (db st) "customers:c1" = Some 90 /\
  ttl_of (db (set customers pro None st).2) "customers:c1" = ttl_of (db st) "customers:c1" /\
  exists st',
    setex customers pro 30 st = (Ok (VObj pro), st') /\
    ttl_of (db st') "customers:c1" = Some 30 /\
    value_at (db st') "customers:c1" = Some (VObj pro) /\
    trace st' = [ESet "customers:c1" (VObj pro) (Ex 30)].
Proof.
  intros st.
  destruct (set_keeps_the_expiry_and_setex_replaces_it customers pro st) as (Hset & Hsetex).
  split; [reflexivity|]. split.
  - exact (Hset eq_refl None).
  - apply (Hsetex 30); vm_compute; reflexivity.
Defined.

(** C9, the claim as stated fails: a key and a vector that are not empty
    are enough to build a tokenizer, not to read back what it wrote. With
    the two bytes [a1b2] for a key the tokenizer is built, and the token it
    makes of a record does not decode. *)
Lemma tokenizer_fails_on_a_short_key :
  exists t,
    new_Tokenizer (Some "a1b2") (Some "0f") = Ok t /\
    serializable (VObj free) = true /\
    fromToken t (VStr (toToken t (VObj free))) = Err DecodeError.
Proof. eexists. split; [reflexivity|]. vm_compute. split; reflexivity. Qed.

(** C9, as amended, on the key and the vector of [vault]. *)
Lemma tokenizer_round_trip_witness :
  exists t,
    new_Tokenizer (Some secret) (Some vector) = Ok t /\
    fromToken t (VStr (toToken t (VObj free))) = Ok (VObj free).
Proof.
  destruct (tokenizer_round_trip (Some secret) (Some vector)) as (Hbuilt & _).
  destruct (Hbuilt secret vector eq_refl eq_refl eq_refl eq_refl)
    as (t & Ht & Hround).
  exists t. split; [exact Ht|]. apply Hround. vm_compute. reflexivity.
Defined.

(** ** Further properties, on concrete stores *)

Lemma get_after_set_witness :
  let token := VStr (toToken {| secretKey := secret; iv := vector |} (VObj free)) in
  exists st',
    set vault pro None (holding token) = (Ok (VObj pro), st') /\
    (get vault (VStr "c1") st').1 = Ok (VObj pro).
Proof.
  intros token. eexists. split; [vm_compute; reflexivity|].
  refine (proj2 (get_after_set vault pro None (holding token) _ (VObj pro) _ _ _ _));
    vm_compute; reflexivity.
Defined.

Lemma concurrent_update_means_a_mismatch_witness :
  exists expected old,
    Some (VObj team) = Some expected /\ truthy expected = true /\
    decrypt customers (previous_value (db (holding (VObj free))) "customers:c1") = Ok old /\
    isEqual old expected = false.
Proof.
  refine (proj1 (proj2 (concurrent_update_means_a_mismatch customers pro (Some (VObj team))
                          (holding (VObj free)) _ _))).
  vm_compute. reflexivity.
Defined.

Lemma indexed_collections_never_expire_witness :
  (has_defaultTTL by_plan_and_city = None \/ indexes by_plan_and_city = []) /\
  forall (data : list (string * value)) (exp : option value) (st st' : state) (e : error),
    set by_plan_and_city data exp st = (Err e, st') ->
    e = StoreError \/ e = DecodeError \/ e = ConcurrentUpdate \/ e = TypeError.
Proof.
  apply (indexed_collections_never_expire by_plan_and_city).
  apply (reachable_addIndex by_plan "city" by_plan_and_city
           {| collection := by_plan_and_city; key := "city" |}); [|reflexivity].
  apply (reachable_addIndex customers "plan" by_plan
           {| collection := by_plan; key := "plan" |}); [|reflexivity].
  exact (reachable_new _ _ customers_built).
Defined.

Lemma getMany_without_encryption_witness :
  getMany customers [VStr "c1"; VStr "c9"] (holding (VObj free))
  = (Ok [VObj free; VNull],
     emit (EMget ["customers:c1"; "customers:c9"]) (holding (VObj free))).
Proof.
  rewrite (getMany_without_encryption customers [VStr "c1"; VStr "c9"]
             (holding (VObj free)) eq_refl).
  vm_compute. reflexivity.
Defined.

Lemma update_of_a_missing_record_witness :
  update customers (VStr "c9") (PatchData (VObj [("plan", VStr "pro")])) alone 0
    (holding (VObj free))
  = (Err ItemNotFound, emit (EGet "customers:c9") (holding (VObj free))).
Proof.
  apply (update_of_a_missing_record customers (VStr "c9")
           (PatchData (VObj [("plan", VStr "pro")])) alone 0 (holding (VObj free)));
    vm_compute; reflexivity.
Defined.


Lemma calls_write_under_the_prefix_only_witness :
  db (after customers (CallSet pro (Some (VObj team))) shared) !! "orders:o1"
  = db shared !! "orders:o1".
Proof.
  apply (calls_write_under_the_prefix_only customers (CallSet pro (Some (VObj team)))
           shared "orders:o1").
  vm_compute. reflexivity.
Defined.



Lemma update_on_an_expiring_collection_overwrites_witness :
  exists st',
    update sessions (VStr "c1") (PatchData (VObj [("plan", VStr "pro")]))
      (one_write "customers:c1" (VObj team)) 0 (holding (VObj free))
    = (Ok (VObj pro), st') /\
    value_at (db st') "customers:c1" = Some (VObj pro) /\
    ttl_of (db st') "customers:c1" = Some 600.
Proof.
  destruct (update_on_an_expiring_collection_overwrites sessions 600 (VStr "c1") (VObj free)
              (PatchData (VObj [("plan", VStr "pro")]))
              (one_write "customers:c1" (VObj team)) 0 (holding (VObj free))
              (emit (EGet "customers:c1") (holding (VObj free))))
    as (st' & Hupdate & Hvalue & Httl & _); try (vm_compute; reflexivity).
  exists st'. split; [exact Hupdate|]. split; [exact Hvalue|exact Httl].
Defined.

Lemma merge_takes_the_patch_first_witness :
  lookup_prop "visits" (merge (VObj (seen 1)) (PatchFn visit)) = Some (VNum 2) /\
  lookup_prop "id" (merge (VObj (seen 1)) (PatchFn visit)) = Some (VStr "c1").
Proof.
  destruct (merge_takes_the_patch_first (seen 1) (PatchFn visit) "visits") as (Hvisits & _);
    [refine (bool_decide_eq_true_1 _ _); vm_compute; reflexivity ..|].
  destruct (merge_takes_the_patch_first (seen 1) (PatchFn visit) "id") as (Hid & _);
    [refine (bool_decide_eq_true_1 _ _); vm_compute; reflexivity ..|].
  split; [exact Hvisits|exact Hid].
Defined.


Lemma getItems_finds_a_new_record_witness :
  let st' := (set by_plan_and_city berlin_free None no_store).2 in
  exists items,
    (getItems {| collection := by_plan_and_city; key := "city" |} (VStr "berlin") st').1
    = Ok items /\
    In (VObj berlin_free) items.
Proof.
  intros st'.
  apply (getItems_finds_a_new_record by_plan_and_city "city" berlin_free None no_store st'
           (VObj berlin_free)); try (vm_compute; reflexivity).
  right. left. reflexivity.
Defined.

Lemma getItems_returns_stored_records_witness :
  Forall (fun item =>
            item <> VNull /\
            exists m, In m (members_at (db stale)
                              (index_key by_plan_and_city "city" (VStr "berlin"))) /\
                      value_at (db stale) (record_key by_plan_and_city (revive m)) = Some item)
         [VObj berlin_free].
Proof.
  apply (getItems_returns_stored_records by_plan_and_city "city" (VStr "berlin") stale
           (getItems {| collection := by_plan_and_city; key := "city" |}
              (VStr "berlin") stale).2);
    vm_compute; reflexivity.
Defined.

Lemma encrypted_records_are_never_indexed_witness :
  let token := VStr (toToken {| secretKey := secret; iv := vector |} (VObj free)) in
  exists e,
    (e = DecodeError \/ e = ConcurrentUpdate) /\
    set sealed pro None (holding token)
    = (Err e,
       emit (ESet "customers:c1" (encrypt sealed (VObj pro)) KeepTtl)
         (with_db (<["customers:c1" := Entry (PValue (encrypt sealed (VObj pro))) None]>
                     (db (holding token)))
            (holding token))).
Proof.
  intros token.
  apply (encrypted_records_are_never_indexed sealed {| secretKey := secret; iv := vector |}
           pro None (holding token)); try reflexivity.
  - discriminate.
  - right. exists free. split; vm_compute; reflexivity.
Defined.
